(** * chore_queue: queue promotion over a remote task service

    A shallow embedding of [chore_queue.py]: the project path resolver
    ([get_project_id_by_name], [_resolve_hierarchical_project]), the task
    ordering ([parse_order_key], [sorted]) and the promotion engine
    ([promote_queue]) with the client it drives ([Todoist]).

    Conventions of the embedding.
    - A Python [str] is a sequence of code points; the model covers the
      code points U+0000..U+00FF, one Rocq [ascii] each, and tabulates on
      that range the classes Python uses ([str.isspace], the regex classes
      [\s], [\d], [\w], and [str.lower]).
    - A Python [int] is a [Z]: unbounded, as in the interpreter.
    - A JSON object is a record; a key that may be missing is an [option]
      field, [None] for the missing key, read through [.get] with the
      default of the source.  Where the source treats [null] like a missing
      key ([created_at], [due], [parent_id], [promote_label]) [None] stands
      for both; elsewhere a JSON [null] is outside the model.
    - An identifier is a JSON number or a JSON string ([ident]).
    - A raised exception is the [Raise] outcome of the client monad [M];
      the state carried through survives the exception, as in Python. *)

From Stdlib Require Import ZArith NArith Ascii String List Bool Lia.
From Stdlib Require Import Sorting.Sorted Sorting.Permutation.
From stdpp Require Import base option gmap strings list.

Local Open Scope Z_scope.

(** ** Characters and strings *)

Definition ord (c : ascii) : N := N_of_ascii c.

Definition in_range (lo hi : N) (c : ascii) : bool :=
  ((lo <=? ord c) && (ord c <=? hi))%N.

(** [str.isspace] / regex [\s] on U+0000..U+00FF: TAB..CR, FS..US, SPACE,
    NEL (U+0085) and NBSP (U+00A0). *)
Definition is_space (c : ascii) : bool :=
  in_range 9 13 c || in_range 28 32 c || in_range 133 133 c || in_range 160 160 c.

(** regex [\d] (decimal digits): on this range only [0-9]. *)
Definition is_digit (c : ascii) : bool := in_range 48 57 c.

(** regex [\w]: alphanumeric ([str.isalnum]) or underscore.  On this range:
    [0-9A-Za-z_], the letters of the upper half (U+00AA, U+00B5, U+00BA,
    U+00C0..U+00D6, U+00D8..U+00F6, U+00F8..U+00FF) and its numeric
    characters (U+00B2, U+00B3, U+00B9, U+00BC..U+00BE). *)
Definition is_word (c : ascii) : bool :=
  is_digit c || in_range 65 90 c || in_range 97 122 c || in_range 95 95 c
  || in_range 170 170 c || in_range 178 179 c || in_range 181 181 c
  || in_range 185 186 c || in_range 188 190 c || in_range 192 214 c
  || in_range 216 246 c || in_range 248 255 c.

(** [str.lower] on one character: [A-Z] and U+00C0..U+00DE but U+00D7 move
    up by 32; everything else on this range is its own lower case. *)
Definition lower_char (c : ascii) : ascii :=
  if in_range 65 90 c || in_range 192 214 c || in_range 216 222 c
  then ascii_of_N (ord c + 32) else c.

Fixpoint lower (s : string) : string :=
  match s with
  | EmptyString => EmptyString
  | String c s' => String (lower_char c) (lower s')
  end.

Fixpoint lstrip (s : string) : string :=
  match s with
  | String c s' => if is_space c then lstrip s' else s
  | EmptyString => EmptyString
  end.

Fixpoint rstrip (s : string) : string :=
  match s with
  | EmptyString => EmptyString
  | String c s' =>
      match rstrip s' with
      | EmptyString => if is_space c then EmptyString else String c EmptyString
      | r => String c r
      end
  end.

Definition strip (s : string) : string := rstrip (lstrip s).

(** [sep in s] for a one-character [sep]. *)
Fixpoint contains_char (sep : ascii) (s : string) : bool :=
  match s with
  | EmptyString => false
  | String c s' => Ascii.eqb c sep || contains_char sep s'
  end.

(** [s.split(sep)] for a one-character [sep]: every occurrence splits, and
    the result always has at least one element. *)
Fixpoint split (sep : ascii) (s : string) : list string :=
  match s with
  | EmptyString => [EmptyString]
  | String c s' =>
      if Ascii.eqb c sep then EmptyString :: split sep s'
      else match split sep s' with
           | [] => [String c EmptyString]
           | w :: ws => String c w :: ws
           end
  end.

Definition slash : ascii := "/"%char.

(** ** The regular expression [^\s*(\d{2,})\b] *)

Definition first_char (s : string) : option ascii :=
  match s with String c _ => Some c | EmptyString => None end.

Fixpoint last_char (s : string) : option ascii :=
  match s with
  | EmptyString => None
  | String c EmptyString => Some c
  | String _ s' => last_char s'
  end.

Definition word_at (o : option ascii) : bool :=
  match o with Some c => is_word c | None => false end.

(** [\b] between the character before the position and the one after it;
    outside the string counts as a non-word character. *)
Definition word_boundary (before after : option ascii) : bool :=
  xorb (word_at before) (word_at after).

(** A greedy repetition of a character class with backtracking.  [acc] is
    what this repetition has consumed so far, [k] the rest of the pattern,
    given what was consumed and what is left.  The longest repetition is
    tried first; when the rest of the pattern fails on it, one character is
    given back, and so on down to the empty repetition. *)
Fixpoint greedy {R : Type} (cls : ascii -> bool) (s acc : string)
    (k : string -> string -> option R) : option R :=
  match s with
  | String c s' =>
      if cls c then
        match greedy cls s' (acc +:+ String c EmptyString) k with
        | Some r => Some r
        | None => k acc s
        end
      else k acc s
  | EmptyString => k acc s
  end.

(** The tail [{2,}\b] of the group: at least two characters consumed and a
    word boundary where the group ends. *)
Definition group_end (ds rest : string) : option string :=
  if (2 <=? String.length ds)%nat && word_boundary (last_char ds) (first_char rest)
  then Some ds else None.

(** [re.match(r"^\s*(\d{2,})\b", content)]: [Some] of group 1 on a match. *)
Definition re_match (content : string) : option string :=
  greedy is_space content EmptyString (fun _ s1 =>
    greedy is_digit s1 EmptyString group_end).

Definition digit_value (c : ascii) : Z := Z.of_N (ord c) - 48.

(** [int(ds)] on a string of decimal digits. *)
Fixpoint int_acc (ds : string) (acc : Z) : Z :=
  match ds with
  | EmptyString => acc
  | String c ds' => int_acc ds' (10 * acc + digit_value c)
  end.

Definition int (ds : string) : Z := int_acc ds 0.

(** ** Identifiers and remote records *)

Inductive ident : Type :=
  | IInt (n : Z)
  | IStr (s : string).

#[global] Instance ident_eq_dec : EqDecision ident.
Proof. solve_decision. Defined.

#[global] Instance ident_countable : Countable ident.
Proof.
  refine (inj_countable'
            (fun i => match i with IInt n => inl n | IStr s => inr s end)
            (fun x => match x with inl n => IInt n | inr s => IStr s end) _).
  intros []; reflexivity.
Defined.

(** Python truthiness of an identifier: [0] and [""] are falsy. *)
Definition truthy_ident (i : ident) : bool :=
  match i with
  | IInt n => negb (n =? 0)
  | IStr s => negb (String.eqb s EmptyString)
  end.

(** Truthiness of [x] for an optional value: [None] is falsy. *)
Definition truthy (o : option ident) : bool :=
  match o with Some i => truthy_ident i | None => false end.

Record project : Type := mk_project {
  proj_id : ident;
  name : string;
  parent_id : option ident
}.

Record due_t : Type := mk_due { due_text : string; due_locale : string }.

Record task : Type := mk_task {
  task_id : ident;
  content : option string;
  created_at : option string;
  due : option due_t;
  labels : option (list ident);
  project_id : ident
}.

Record label : Type := mk_label { lab_id : ident; lab_name : string }.

(** ** Task ordering *)

Definition sentinel : Z := 10 ^ 9.

Definition prefix_of (t : task) : option string :=
  re_match (default EmptyString (content t)).

Definition parse_order_key (t : task) : Z * string :=
  let prefix := match prefix_of t with Some g => int g | None => sentinel end in
  let created := default EmptyString (created_at t) in
  (prefix, created).

(** [<] on the key tuples: the first components that differ decide. *)
Definition key_ltb (a b : Z * string) : bool :=
  if fst a =? fst b then String.ltb (snd a) (snd b) else fst a <? fst b.

Section Sorted.
Context {A K : Type} (ltb : K -> K -> bool) (key : A -> K).

(** [x] goes in front of the first element whose key is not below its own:
    behind every smaller key, in front of the equal ones. *)
Fixpoint insert_by (x : A) (l : list A) : list A :=
  match l with
  | [] => [x]
  | y :: l' => if ltb (key y) (key x) then y :: insert_by x l' else x :: l
  end.

(** [sorted(l, key=key)]: the ascending stable sort, which compares keys
    with [<] only.  Insertion from the right end keeps elements with
    equal keys in their input order. *)
Definition sorted (l : list A) : list A := foldr insert_by [] l.

(** [x] is not above [y]. *)
Definition le_by (x y : A) : Prop := ltb (key y) (key x) = false.

(** The key of [y] is equivalent to [k]: neither is below the other. *)
Definition same_key (k : K) (y : A) : bool :=
  negb (ltb k (key y)) && negb (ltb (key y) k).
End Sorted.

Definition tasks_sorted (tasks : list task) : list task :=
  sorted key_ltb parse_order_key tasks.

(** ** Exceptions and results *)

Inductive exn : Type :=
  | RuntimeError (status_code : Z) (text : string)
  | ValueError (msg : string)
  | TypeError
  | KeyError
  | IndexError.

Inductive res (A : Type) : Type :=
  | Ok (a : A)
  | Raise (e : exn).
Arguments Ok {A} a.
Arguments Raise {A} e.

(** ** Project path resolver *)

(** [p["name"].strip().lower() == s.lower()] *)
Definition name_is (p : project) (s : string) : bool :=
  String.eqb (lower (strip (name p))) (lower s).

(** One round of the map-building loop on [children_map]. *)
Definition add_child (children_map : gmap ident (list ident)) (p : project)
    : gmap ident (list ident) :=
  match parent_id p with
  | Some parent =>
      if truthy_ident parent then
        let cm :=
          match children_map !! parent with
          | None => <[parent := []]> children_map
          | Some _ => children_map
          end in
        alter (fun ids => ids ++ [proj_id p]) parent cm
      else children_map
  | None => children_map
  end.

Definition build_maps (projects : list project)
    : gmap ident project * gmap ident (list ident) :=
  foldl (fun maps p => (<[proj_id p := p]> (fst maps), add_child (snd maps) p))
        (∅, ∅) projects.

Definition root_candidates (projects : list project) (first : string) : list ident :=
  map proj_id
      (List.filter (fun p => negb (truthy (parent_id p)) && name_is p first) projects).

(** The scan of [child_ids]: the first child whose name matches [part];
    [project_map[child_id]] raises [KeyError] on a missing key. *)
Fixpoint find_child (project_map : gmap ident project) (part : string)
    (child_ids : list ident) : res (option ident) :=
  match child_ids with
  | [] => Ok None
  | child_id :: ids =>
      match project_map !! child_id with
      | None => Raise KeyError
      | Some child_project =>
          if name_is child_project part then Ok (Some child_id)
          else find_child project_map part ids
      end
  end.

(** The traversal of [path_parts[1:]] from one root: [Some] of the node
    reached when [found] stays true, [None] when it breaks off. *)
Fixpoint walk (project_map : gmap ident project)
    (children_map : gmap ident (list ident))
    (current_id : ident) (parts : list string) : res (option ident) :=
  match parts with
  | [] => Ok (Some current_id)
  | part :: parts' =>
      match find_child project_map part (default [] (children_map !! current_id)) with
      | Raise e => Raise e
      | Ok None => Ok None
      | Ok (Some next_id) => walk project_map children_map next_id parts'
      end
  end.

Fixpoint try_roots (project_map : gmap ident project)
    (children_map : gmap ident (list ident))
    (parts : list string) (roots : list ident) : res (option ident) :=
  match roots with
  | [] => Ok None
  | root_id :: roots' =>
      match walk project_map children_map root_id parts with
      | Raise e => Raise e
      | Ok (Some current_id) => Ok (Some current_id)
      | Ok None => try_roots project_map children_map parts roots'
      end
  end.

Definition _resolve_hierarchical_project (projects : list project) (path : string)
    : res (option ident) :=
  let path_parts := map strip (split slash path) in
  let maps := build_maps projects in
  match path_parts with
  | [] => Raise IndexError
  | first :: parts => try_roots (fst maps) (snd maps) parts (root_candidates projects first)
  end.

(** The first loop of [get_project_id_by_name]. *)
Definition exact_match (projects : list project) (nm : string) : option project :=
  List.find (fun p => name_is p (strip nm)) projects.

(** [get_project_id_by_name] after the listing call. *)
Definition resolve_name (projects : list project) (nm : string) : res (option ident) :=
  match exact_match projects nm with
  | Some p => Ok (Some (proj_id p))
  | None =>
      if contains_char slash nm then _resolve_hierarchical_project projects nm
      else Ok None
  end.

(** ** The remote service and the client

    The service is outside the program; the client sees it through [_req].
    The model keeps what the service stores ([store]), how it answers each
    request it accepts ([serve]), and a schedule [faults] that decides, for
    the n-th request of a run, whether it is refused (status >= 400),
    accepted with a body that is not JSON, or accepted with a JSON body.
    Every request the client issues is appended to [log].  A request
    that gets no HTTP answer at all (connection error, timeout) or an
    answer whose JSON body does not parse is outside the model. *)

Record store : Type := mk_store {
  st_projects : list project;
  st_tasks : list task;
  st_labels : list label;
  st_next_label : Z
}.

Inductive request : Type :=
  | GET_projects
  | GET_tasks (pid : ident)
  | POST_task_due (tid : ident) (due_string due_lang : string)
  | POST_task_labels (tid : ident) (new_labels : list ident)
  | GET_labels
  | POST_labels (label_name : string).

Inductive json : Type :=
  | JProjects (ps : list project)
  | JTasks (ts : list task)
  | JLabels (ls : list label)
  | JLabel (l : label)
  | JUnit.

Inductive outcome : Type :=
  | Refused (status_code : Z) (text : string)
  | NoJson
  | Json.

(** The directive that removes a due date. *)
Definition no_due_date : string := "no due date".

Definition due_of (due_string due_lang : string) : option due_t :=
  if String.eqb due_string no_due_date then None
  else Some (mk_due due_string due_lang).

Definition set_due (tid : ident) (d : option due_t) (t : task) : task :=
  if bool_decide (task_id t = tid)
  then mk_task (task_id t) (content t) (created_at t) d (labels t) (project_id t)
  else t.

Definition set_labels (tid : ident) (ls : list ident) (t : task) : task :=
  if bool_decide (task_id t = tid)
  then mk_task (task_id t) (content t) (created_at t) (due t) (Some ls) (project_id t)
  else t.

Definition with_tasks (s : store) (ts : list task) : store :=
  mk_store (st_projects s) ts (st_labels s) (st_next_label s).

(** What the service does with a request it accepts. *)
Definition serve (r : request) (s : store) : json * store :=
  match r with
  | GET_projects => (JProjects (st_projects s), s)
  | GET_tasks pid =>
      (JTasks (List.filter (fun t => bool_decide (project_id t = pid)) (st_tasks s)), s)
  | POST_task_due tid ds dl =>
      (JUnit, with_tasks s (map (set_due tid (due_of ds dl)) (st_tasks s)))
  | POST_task_labels tid ls =>
      (JUnit, with_tasks s (map (set_labels tid ls) (st_tasks s)))
  | GET_labels => (JLabels (st_labels s), s)
  | POST_labels nm =>
      let l := mk_label (IInt (st_next_label s)) nm in
      (JLabel l,
       mk_store (st_projects s) (st_tasks s) (st_labels s ++ [l]) (st_next_label s + 1))
  end.

Record world : Type := mk_world {
  remote : store;
  faults : nat -> outcome;
  log : list request;
  _label_cache : option (list label)
}.

Definition M (A : Type) : Type := world -> res A * world.

Definition ret {A} (a : A) : M A := fun w => (Ok a, w).
Definition raise {A} (e : exn) : M A := fun w => (Raise e, w).
Definition bind {A B} (m : M A) (k : A -> M B) : M B :=
  fun w => match m w with
           | (Ok a, w') => k a w'
           | (Raise e, w') => (Raise e, w')
           end.

(** [try: m  except Exception: h] *)
Definition try_except {A} (m : M A) (h : exn -> M A) : M A :=
  fun w => match m w with
           | (Ok a, w') => (Ok a, w')
           | (Raise e, w') => h e w'
           end.

Declare Scope client_scope.
Delimit Scope client_scope with client.
Notation "x <- m ;; k" := (bind m (fun x => k))
  (at level 100, m at next level, right associativity) : client_scope.
Notation "m ;;; k" := (bind m (fun _ => k))
  (at level 100, right associativity) : client_scope.
Local Open Scope client_scope.

(** [Todoist._req]: the body is [None] unless the answer is JSON. *)
Definition _req (r : request) : M (option json) := fun w =>
  let logged := log w ++ [r] in
  match faults w (length (log w)) with
  | Refused code text =>
      (Raise (RuntimeError code text),
       mk_world (remote w) (faults w) logged (_label_cache w))
  | NoJson =>
      (Ok None, mk_world (snd (serve r (remote w))) (faults w) logged (_label_cache w))
  | Json =>
      (Ok (Some (fst (serve r (remote w)))),
       mk_world (snd (serve r (remote w))) (faults w) logged (_label_cache w))
  end.

Definition set_label_cache (c : option (list label)) : M unit := fun w =>
  (Ok tt, mk_world (remote w) (faults w) (log w) c).

Definition get_label_cache : M (option (list label)) := fun w =>
  (Ok (_label_cache w), w).

Definition list_projects : M (option json) := _req GET_projects.

(** Iterating over the answer of [list_projects]: [None] is not iterable. *)
Definition iter_projects (j : option json) : M (list project) :=
  match j with
  | Some (JProjects ps) => ret ps
  | _ => raise TypeError
  end.

Definition get_project_id_by_name (nm : string) : M (option ident) :=
  j <- list_projects ;;
  projects <- iter_projects j ;;
  match resolve_name projects nm with
  | Ok r => ret r
  | Raise e => raise e
  end.

(** [list_tasks(project_id=pid)]: [self._req(...) or []] *)
Definition list_tasks (pid : ident) : M (list task) :=
  j <- _req (GET_tasks pid) ;;
  match j with
  | None => ret []
  | Some (JTasks ts) => ret ts
  | Some _ => raise TypeError
  end.

Definition update_task_due (tid : ident) (due_string due_lang : string) : M unit :=
  _req (POST_task_due tid due_string due_lang) ;;; ret tt.

Definition update_task_labels (tid : ident) (ls : list ident) : M unit :=
  _req (POST_task_labels tid ls) ;;; ret tt.

Definition _labels : M (list label) :=
  c <- get_label_cache ;;
  match c with
  | Some ls => ret ls
  | None =>
      j <- _req GET_labels ;;
      match j with
      | None => set_label_cache (Some []) ;;; ret []
      | Some (JLabels ls) => set_label_cache (Some ls) ;;; ret ls
      | Some _ => raise TypeError
      end
  end.

Definition ensure_label (label_name0 : string) : M ident :=
  let label_name := lstrip label_name0 in
  if String.eqb label_name EmptyString then raise (ValueError "label name empty")
  else
    labs <- _labels ;;
    match List.find (fun lab => String.eqb (lower (lab_name lab)) (lower label_name)) labs with
    | Some lab => ret (lab_id lab)
    | None =>
        created <- _req (POST_labels label_name) ;;
        set_label_cache None ;;;
        match created with
        | Some (JLabel l) => ret (lab_id l)
        | _ => raise TypeError
        end
    end.

(** ** Queue promotion *)

Record config : Type := mk_config {
  project_name : string;
  due_string : option string;
  language : option string;
  promote_label : option string;
  clear_due_on_rest : option bool
}.

Inductive status : Type :=
  | status_ok
  | status_empty
  | status_missing_project.

(** The summary dict; the keys after ["status"] exist only when it is ["ok"]. *)
Record summary : Type := mk_summary {
  sum_project : string;
  sum_status : status;
  promoted_task : option string;
  cleared_due_on : option nat;
  labeled : option bool
}.

Definition has_due (t : task) : bool :=
  match due t with Some _ => true | None => false end.

(** The loop over [rest]; returns how many due dates it cleared on top of
    [cleared]. *)
Fixpoint clear_rest (lang : string) (rest : list task) (cleared : nat) : M nat :=
  match rest with
  | [] => ret cleared
  | tsk :: rest' =>
      if has_due tsk then
        update_task_due (task_id tsk) no_due_date lang ;;;
        clear_rest lang rest' (S cleared)
      else clear_rest lang rest' cleared
  end.

(** The body of the [try] block. *)
Definition label_head (head : task) (promote_label : string) : M bool :=
  label_id <- ensure_label promote_label ;;
  let labels := default [] (labels head) in
  (if negb (bool_decide (label_id ∈ labels))
      && negb (bool_decide (IStr promote_label ∈ labels))
   then update_task_labels (task_id head) (labels ++ [label_id])
   else ret tt) ;;;
  ret true.

Definition string_truthy (o : option string) : option string :=
  match o with
  | Some s => if String.eqb s EmptyString then None else Some s
  | None => None
  end.

(** [# clear due on rest if requested] *)
Definition clear_due_step (cfg : config) (language : string) (rest : list task) : M nat :=
  if default true (clear_due_on_rest cfg)
  then clear_rest language rest 0%nat
  else ret 0%nat.

(** [# optional labeling for visibility] *)
Definition labeling_step (cfg : config) (head : task) : M bool :=
  match string_truthy (promote_label cfg) with
  | Some promote_label =>
      try_except (label_head head promote_label) (fun _ => ret false)
  | None => ret false
  end.

Definition missing_project (pname : string) : summary :=
  mk_summary pname status_missing_project None None None.

Definition empty_queue (pname : string) : summary :=
  mk_summary pname status_empty None None None.

Definition promoted (pname : string) (head : task) (cleared : nat) (labeled : bool)
    : summary :=
  mk_summary pname status_ok (Some (default "(unnamed)"%string (content head)))
             (Some cleared) (Some labeled).

Definition promote_queue (cfg : config) : M summary :=
  let pname := project_name cfg in
  pid <- get_project_id_by_name pname ;;
  match pid with
  | Some pid' =>
      if truthy_ident pid' then
        tasks <- list_tasks pid' ;;
        match tasks, tasks_sorted tasks with
        | [], _ => ret (empty_queue pname)
        | _ :: _, [] => raise IndexError
        | _ :: _, head :: rest =>
            let due_string := default "today"%string (due_string cfg) in
            let language := default "en"%string (language cfg) in
            update_task_due (task_id head) due_string language ;;;
            cleared <- clear_due_step cfg language rest ;;
            labeled <- labeling_step cfg head ;;
            ret (promoted pname head cleared labeled)
        end
      else ret (missing_project pname)
  | None => ret (missing_project pname)
  end.

(** ** Worlds after a request *)

(** The world after a request the service refused. *)
Definition logged (r : request) (w : world) : world :=
  mk_world (remote w) (faults w) (log w ++ [r]) (_label_cache w).

(** The world after a request the service accepted. *)
Definition served (r : request) (w : world) : world :=
  mk_world (snd (serve r (remote w))) (faults w) (log w ++ [r]) (_label_cache w).

(** The world after the listing of the projects. *)
Definition listed (w : world) : world :=
  mk_world (remote w) (faults w) (log w ++ [GET_projects]) (_label_cache w).

(** The store after the service accepted the requests [rs] in turn. *)
Definition replay (rs : list request) (s : store) : store :=
  fold_left (fun s r => snd (serve r s)) rs s.

(** No request of the run is refused or answered without JSON. *)
Definition reliable (w : world) : Prop := forall n, faults w n = Json.

Definition clear_request (lang : string) (t : task) : request :=
  POST_task_due (task_id t) no_due_date lang.

(** The requests of the labeling step. *)
Definition label_service_request (r : request) : bool :=
  match r with
  | GET_labels | POST_labels _ => true
  | _ => false
  end.

Definition label_write (r : request) : bool :=
  match r with
  | POST_task_labels _ _ => true
  | _ => false
  end.


(** Two snapshots of a task that differ at most in the label set. *)
Definition same_but_labels (t t' : task) : Prop :=
  task_id t' = task_id t /\ content t' = content t /\ created_at t' = created_at t
  /\ due t' = due t /\ project_id t' = project_id t.

(** What a step may change when it only talks about labels. *)
Definition labeling_frame (w w' : world) : Prop :=
  faults w' = faults w
  /\ st_projects (remote w') = st_projects (remote w)
  /\ Forall2 same_but_labels (st_tasks (remote w)) (st_tasks (remote w'))
  /\ exists l, log w' = log w ++ l
       /\ forallb (fun r => label_service_request r || label_write r) l = true.

(** From [w] to [w'] the client issued only requests of kind [P]. *)
Definition issues (P : request -> bool) (w w' : world) : Prop :=
  exists l, log w' = log w ++ l /\ forallb P l = true.

Definition due_string_of (cfg : config) : string := default "today"%string (due_string cfg).
Definition language_of (cfg : config) : string := default "en"%string (language cfg).

(** The world in which the head has just been promoted: the listing of the
    projects, the listing of the tasks of [pid], and the due date written
    on [head]. *)
Definition head_promoted (cfg : config) (pid : ident) (head : task) (w : world) : world :=
  served (POST_task_due (task_id head) (due_string_of cfg) (language_of cfg))
         (logged (GET_tasks pid) (listed w)).

(** The tasks the service lists for [pid]. *)
Definition tasks_in (pid : ident) (s : store) : list task :=
  List.filter (fun t => bool_decide (project_id t = pid)) (st_tasks s).

(** The clearing requests of a run: none when clearing is switched off. *)
Definition clear_requests (cfg : config) (rest : list task) : list request :=
  if default true (clear_due_on_rest cfg)
  then map (clear_request (language_of cfg)) (List.filter has_due rest)
  else [].

(** The run on [w] has resolved the project, listed its tasks, promoted
    [head] and finished the clearing with [cleared] dates removed; [w4] is
    the world in which the labeling step starts. *)
Definition reaches_labeling (cfg : config) (w : world) (head : task)
    (cleared : nat) (w4 : world) : Prop :=
  exists pid tasks rest,
    get_project_id_by_name (project_name cfg) w = (Ok (Some pid), listed w)
    /\ truthy_ident pid = true
    /\ list_tasks pid (listed w) = (Ok tasks, logged (GET_tasks pid) (listed w))
    /\ tasks_sorted tasks = head :: rest
    /\ update_task_due (task_id head) (due_string_of cfg) (language_of cfg)
                       (logged (GET_tasks pid) (listed w))
       = (Ok tt, head_promoted cfg pid head w)
    /\ clear_due_step cfg (language_of cfg) rest (head_promoted cfg pid head w)
       = (Ok cleared, w4).

(** ** Sample data *)

Definition chore (i : Z) (c cr : string) (d : option due_t) : task :=
  mk_task (IInt i) (Some c) (Some cr) d (Some []) (IInt 7).

Definition dishes : task := chore 1 "10 dishes" "2024-01-01T08:00:00Z" None.
Definition trash : task :=
  chore 2 "02 trash" "2024-01-02T08:00:00Z" (Some (mk_due "2024-01-01" "en")).
Definition wipe : task := chore 3 "wipe counters" "2024-01-03T08:00:00Z" None.

(** Tasks whose prefix has ten digits. *)
Definition deep_clean : task := chore 4 "2000000000 deep clean" "2024-01-01T08:00:00Z" None.
Definition attic : task := chore 5 "1000000000 attic" "2024-01-09T08:00:00Z" None.

Definition mop : task :=
  chore 6 "15 mop" "2024-01-04T08:00:00Z" (Some (mk_due "2024-01-05" "en")).

Definition sample_projects : list project :=
  [ mk_project (IInt 7) "chore queue" None;
    mk_project (IInt 8) "Spare Queue" None;
    mk_project (IInt 0) "Zero Queue" None ].

Definition sample_store : store :=
  mk_store sample_projects [dishes; trash; wipe; mop] [] 100.

Definition always_json : nat -> outcome := fun _ => Json.

Definition refuse_at (n : nat) : nat -> outcome :=
  fun k => if Nat.eqb k n then Refused 503 "service unavailable" else Json.

Definition sample_world : world := mk_world sample_store always_json [] None.

Definition queue_cfg (nm : string) : config :=
  mk_config nm (Some "today"%string) (Some "en"%string) (Some "@next"%string) (Some true).

(** The head already carries the configured label name. *)
Definition trash_next : task :=
  mk_task (IInt 2) (Some "02 trash"%string) (Some "2024-01-02T08:00:00Z"%string)
          (Some (mk_due "2024-01-01" "en")) (Some [IStr "@next"]) (IInt 7).

Definition labeled_store : store :=
  mk_store sample_projects [dishes; trash_next; wipe; mop]
           [mk_label (IInt 100) "@Next"] 101.

Definition labeled_world : world := mk_world labeled_store always_json [] None.

(** The sample run up to the labeling step, under the fault schedule [f]. *)
Definition sample_before_labeling (f : nat -> outcome) : world :=
  mk_world (replay [POST_task_due (IInt 2) "today" "en";
                    POST_task_due (IInt 6) "no due date" "en"] sample_store)
           f
           [GET_projects; GET_tasks (IInt 7);
            POST_task_due (IInt 2) "today" "en";
            POST_task_due (IInt 6) "no due date" "en"]
           None.


(** Two snapshots of one task between runs: what the ordering and the
    listing read is the same; due date and labels may differ. *)
Definition same_queue_task (t t' : task) : Prop :=
  task_id t' = task_id t /\ content t' = content t
  /\ created_at t' = created_at t /\ project_id t' = project_id t.

(** The tasks of [rest] the clearing step writes to. *)
Definition cleared_tasks (cfg : config) (rest : list task) : list task :=
  if default true (clear_due_on_rest cfg) then List.filter has_due rest else [].

(** A task before and after the clearing of the tasks [cs]: its due date
    is gone, or it is none of [cs] and keeps the due date it had. *)
Definition cleared_rel (cs : list task) (t t' : task) : Prop :=
  same_queue_task t t'
  /\ (due t' = None \/ (due t' = due t /\ ~ In (task_id t) (map task_id cs))).

(** A task before and after a whole run that cleared [rest]: a task of
    [rest] has no due date afterwards when clearing is switched on. *)
Definition run_rel (cfg : config) (rest : list task) (t t' : task) : Prop :=
  same_queue_task t t'
  /\ (default true (clear_due_on_rest cfg) = true ->
      In (task_id t) (map task_id rest) -> due t' = None).

(** ** Notions of the properties *)

Definition before_in {A} (l : list A) (a b : A) : Prop :=
  exists l1 l2 l3, l = l1 ++ a :: l2 ++ b :: l3.

(** The order of the keys as a relation: the prefixes decide, and equal
    prefixes leave it to the creation timestamps, compared as strings. *)
Definition str_lt (a b : string) : Prop := (a ?= b)%string = Lt.
Definition str_le (a b : string) : Prop := (a ?= b)%string <> Gt.

Definition key_lt (a b : Z * string) : Prop :=
  fst a < fst b \/ (fst a = fst b /\ str_lt (snd a) (snd b)).
Definition key_le (a b : Z * string) : Prop :=
  fst a < fst b \/ (fst a = fst b /\ str_le (snd a) (snd b)).

Definition task_le (a b : task) : Prop :=
  key_le (parse_order_key a) (parse_order_key b).
Definition task_lt (a b : task) : Prop :=
  key_lt (parse_order_key a) (parse_order_key b).

Fixpoint all_chars (cls : ascii -> bool) (s : string) : bool :=
  match s with
  | EmptyString => true
  | String c s' => cls c && all_chars cls s'
  end.

(** The longest run of [cls] at the front of [s], and what follows it. *)
Fixpoint span (cls : ascii -> bool) (s : string) : string * string :=
  match s with
  | String c s' =>
      if cls c then (String c (fst (span cls s')), snd (span cls s'))
      else (EmptyString, s)
  | EmptyString => (EmptyString, EmptyString)
  end.

(** The match in words: white space, then a run of at least two digits,
    then the end of the content or a character that is no word character
    (no letter, digit or underscore). *)
Definition numeric_prefix (content ds : string) : Prop :=
  exists ws rest,
    content = ws +:+ ds +:+ rest /\
    all_chars is_space ws = true /\
    all_chars is_digit ds = true /\
    (2 <= String.length ds)%nat /\
    word_at (first_char rest) = false.

Definition content_of (t : task) : string := default EmptyString (content t).
Definition created_of (t : task) : string := default EmptyString (created_at t).

(** The full name of [p] equals [nm], both trimmed and lower-cased. *)
Definition full_name_is (p : project) (nm : string) : Prop :=
  lower (strip (name p)) = lower (strip nm).

(** A project whose name contains "/" wins over the chain of the same
    spelling. *)
Definition chores_listing : list project :=
  [ mk_project (IInt 1) "Chores" None;
    mk_project (IInt 2) "Rotating Chore Queue" (Some (IInt 1));
    mk_project (IInt 3) " chores/rotating chore queue" None ].

(** The resolution as the design describes it, on the listing itself: no
    maps, the children of a node are the projects that name it as parent,
    in listing order. *)
Definition segments (path : string) : list string := map strip (split slash path).

Definition is_root (p : project) : bool :=
  match parent_id p with None => true | Some _ => false end.

Definition children_of (projects : list project) (n : ident) : list project :=
  List.filter (fun p => bool_decide (parent_id p = Some n)) projects.

Fixpoint walk_path (projects : list project) (current : ident) (segs : list string)
    : option ident :=
  match segs with
  | [] => Some current
  | seg :: segs' =>
      match List.find (fun c => name_is c seg) (children_of projects current) with
      | None => None
      | Some c => walk_path projects (proj_id c) segs'
      end
  end.

Fixpoint first_success {A B} (f : A -> option B) (l : list A) : option B :=
  match l with
  | [] => None
  | x :: l' => match f x with Some y => Some y | None => first_success f l' end
  end.

Definition resolve_path (projects : list project) (path : string) : option ident :=
  match segments path with
  | [] => None
  | seg0 :: segs =>
      first_success (fun r => walk_path projects (proj_id r) segs)
        (List.filter (fun p => is_root p && name_is p seg0) projects)
  end.

(** A listing of a forest: identifiers identify, and a parent reference is
    an identifier the service can issue (never [0] or [""]). *)
Definition forest_listing (projects : list project) : Prop :=
  List.NoDup (map proj_id projects)
  /\ forall p i, In p projects -> parent_id p = Some i -> truthy_ident i = true.

Definition nested_listing : list project :=
  [ mk_project (IInt 1) "Chores" None;
    mk_project (IInt 2) "Archive" (Some (IInt 1));
    mk_project (IInt 3) "chores " None;
    mk_project (IInt 4) "Rotating Chore Queue" (Some (IInt 3));
    mk_project (IInt 5) "rotating chore queue" (Some (IInt 3)) ].

(** [==] on the key tuples. *)
Definition key_eqb (a b : Z * string) : bool :=
  (fst a =? fst b) && String.eqb (snd a) (snd b).

(** The label cache is empty or holds what the service stores. *)
Definition cache_coherent (w : world) : Prop :=
  _label_cache w = None \/ _label_cache w = Some (st_labels (remote w)).

Definition is_label_listing (r : request) : bool :=
  match r with GET_labels => true | _ => false end.

(** The effect on one task of the clearing of the tasks with identifiers
    [ids]. *)
Definition clear_ids (ids : list ident) (t : task) : task :=
  if bool_decide (task_id t ∈ ids) then set_due (task_id t) None t else t.

(** A step that leaves projects and tasks of the store as they are. *)
Definition keeps_tasks (w w' : world) : Prop :=
  st_projects (remote w') = st_projects (remote w)
  /\ st_tasks (remote w') = st_tasks (remote w).


(** ** Reporting and the driver *)

(** The lines the program prints, one constructor for each template. *)
Inductive line : Type :=
  | Success (task project : string)
      (** [success: '{task}' promoted to today in {project}] *)
  | ClearedDue (cleared : nat)
      (** [  cleared due dates from {cleared} other tasks] *)
  | AppliedLabel
      (** [  applied @next label] *)
  | NoTasks (project : string)
      (** [info: {project} has no tasks] *)
  | ProjectNotFound (project : string)
      (** [error: project '{project}' not found] *)
  | Failed (project : string) (e : exn)
      (** [error: {project} - {str(e)}], printed by [main] *)
  | SetToken.
      (** [error: set TODOIST_TOKEN], on standard error *)

(** [print_result]: the lines it prints, or the [KeyError] of a summary
    that lacks a key the ["ok"] branch reads.  The branch for the status
    ["error"] has no counterpart: [promote_queue] builds no such summary
    and [status] has no such value. *)
Definition print_result (result : summary) : res (list line) :=
  let project := sum_project result in
  match sum_status result with
  | status_ok =>
      match promoted_task result, cleared_due_on result, labeled result with
      | Some task, Some cleared, Some labeled =>
          Ok ([Success task project]
              ++ (if (0 <? cleared)%nat then [ClearedDue cleared] else [])
              ++ (if labeled then [AppliedLabel] else []))
      | _, _, _ => Raise KeyError
      end
  | status_empty => Ok [NoTasks project]
  | status_missing_project => Ok [ProjectNotFound project]
  end.

(** The loop of [main] over the configured queues: what it prints, and the
    world it leaves. *)
Fixpoint run_queues (queues : list config) (w : world) : list line * world :=
  match queues with
  | [] => ([], w)
  | cfg :: queues' =>
      let printed :=
        match promote_queue cfg w with
        | (Ok res, _) =>
            match print_result res with
            | Ok lines => lines
            | Raise e => [Failed (project_name cfg) e]
            end
        | (Raise e, _) => [Failed (project_name cfg) e]
        end in
      let rest := run_queues queues' (snd (promote_queue cfg w)) in
      (printed ++ fst rest, snd rest)
  end.

Record exit_state : Type := mk_exit {
  exit_code : Z;
  stdout : list line;
  stderr : list line;
  requests : list request;
  store_left : store
}.

(** [main], with the environment variable [TODOIST_TOKEN], the constant
    [QUEUES] and the service as parameters.  [Todoist(token)] starts with
    an empty label cache. *)
Definition main (token : option string) (queues : list config)
    (service : store) (schedule : nat -> outcome) : exit_state :=
  match string_truthy token with
  | None => mk_exit 1 [] [SetToken] [] service
  | Some _ =>
      let r := run_queues queues (mk_world service schedule [] None) in
      mk_exit 0 (fst r) [] (log (snd r)) (remote (snd r))
  end.


(** ** The hierarchical walk in words

    The resolution of a path as the design words it, without the helper
    functions of the code: segments are what lies between the slashes,
    trimmed; names match when they are equal up to letter case after
    trimming; children and root candidates are taken in listing order. *)








(** [x] is the first element of [l] with [P]. *)
Definition first_such {A} (P : A -> Prop) (l : list A) (x : A) : Prop :=
  exists l1 l2, l = l1 ++ x :: l2 /\ P x /\ forall y, In y l1 -> ~ P y.






(** A configuration whose due expression is the clearing directive. *)
Definition clearing_cfg : config :=
  mk_config "Chore Queue" (Some "no due date"%string) (Some "en"%string) None (Some true).

(** * Properties *)

(** ** Sorting with a key *)

Section SortedFacts.
Context {A K : Type} (ltb : K -> K -> bool) (key : A -> K).
Hypothesis ltb_asym : forall a b, ltb a b = true -> ltb b a = false.
Hypothesis leb_trans :
  forall a b c, ltb b a = false -> ltb c b = false -> ltb c a = false.

Lemma insert_by_perm x l : Permutation (x :: l) (insert_by ltb key x l).
Proof.
  induction l as [|y l IH]; simpl; [reflexivity|].
  destruct (ltb (key y) (key x)); [|reflexivity].
  rewrite perm_swap. now constructor.
Qed.

Lemma sorted_perm l : Permutation l (sorted ltb key l).
Proof.
  induction l as [|x l IH]; simpl; [constructor|].
  etransitivity; [|apply insert_by_perm]. now constructor.
Qed.

Lemma insert_by_sorted x l :
  StronglySorted (le_by ltb key) l -> StronglySorted (le_by ltb key) (insert_by ltb key x l).
Proof.
  induction 1 as [|y l Hl IH Hy]; simpl.
  - repeat constructor.
  - destruct (ltb (key y) (key x)) eqn:E.
    + constructor; [exact IH|].
      rewrite List.Forall_forall in *. intros z Hz.
      apply (Permutation_in _ (Permutation_sym (insert_by_perm x l))) in Hz.
      destruct Hz as [<-|Hz]; [apply ltb_asym, E|now apply Hy].
    + constructor; [now constructor|].
      constructor; [exact E|].
      rewrite List.Forall_forall in *. intros z Hz.
      unfold le_by in *. eapply leb_trans; [exact E|now apply Hy].
Qed.

Lemma sorted_sorted l : StronglySorted (le_by ltb key) (sorted ltb key l).
Proof.
  induction l as [|x l IH]; simpl; [constructor|now apply insert_by_sorted].
Qed.

(** Stability: the elements whose keys are equivalent to [k] come out in
    the order they went in. *)
Lemma insert_by_stable k x l :
  List.filter (same_key ltb key k) (insert_by ltb key x l)
  = List.filter (same_key ltb key k) (x :: l).
Proof.
  induction l as [|y l IH]; [reflexivity|].
  cbn [insert_by]. destruct (ltb (key y) (key x)) eqn:E; [|reflexivity].
  cbn [List.filter] in *. rewrite IH.
  destruct (same_key ltb key k y) eqn:Ey, (same_key ltb key k x) eqn:Ex; try reflexivity.
  exfalso. unfold same_key in *.
  apply andb_true_iff in Ey as [Ey1 Ey2], Ex as [Ex1 Ex2].
  apply negb_true_iff in Ey1, Ey2, Ex1, Ex2.
  rewrite (leb_trans _ _ _ Ex1 Ey2) in E. discriminate.
Qed.

Lemma sorted_stable k l :
  List.filter (same_key ltb key k) (sorted ltb key l) = List.filter (same_key ltb key k) l.
Proof.
  induction l as [|x l IH]; [reflexivity|].
  cbn [sorted foldr]. fold (sorted ltb key l).
  rewrite insert_by_stable. cbn [List.filter]. now rewrite IH.
Qed.

Lemma sorted_no_inversion l a b :
  StronglySorted (le_by ltb key) l -> before_in l b a -> (le_by ltb key) b a.
Proof.
  intros Hs (l1 & l2 & l3 & ->).
  induction l1 as [|z l1 IH]; simpl in Hs; inversion Hs; subst; [|auto].
  rewrite List.Forall_forall in *. match goal with H : forall _, In _ _ -> _ |- _ => apply H end.
  apply in_or_app. right. now left.
Qed.

(** An element with a strictly smaller key comes out strictly in front. *)
Lemma sorted_before l a b :
  In a l -> In b l -> ltb (key a) (key b) = true ->
  before_in (sorted ltb key l) a b /\ ~ before_in (sorted ltb key l) b a.
Proof.
  intros Ha Hb Hlt.
  assert (Hno : ~ before_in (sorted ltb key l) b a).
  { intros Hba. apply (sorted_no_inversion _ _ _ (sorted_sorted l)) in Hba.
    unfold le_by in Hba. congruence. }
  split; [|exact Hno].
  apply (Permutation_in _ (sorted_perm l)) in Ha, Hb.
  apply in_split in Ha as (l1 & l2 & E). rewrite E in Hb.
  apply in_app_or in Hb as [Hb|[Hb|Hb]].
  - exfalso. apply Hno. apply in_split in Hb as (m1 & m2 & ->).
    exists m1, m2, l2. rewrite E. now rewrite <- app_assoc.
  - subst b. rewrite (ltb_asym _ _ Hlt) in Hlt. discriminate.
  - apply in_split in Hb as (m1 & m2 & ->). now exists l1, m1, m2.
Qed.
End SortedFacts.

(** ** Order on strings and on keys *)

Lemma str_app_nil_l s : EmptyString +:+ s = s.
Proof. reflexivity. Qed.

Lemma str_app_cons c s t : String c s +:+ t = String c (s +:+ t).
Proof. reflexivity. Qed.

Lemma str_app_nil_r s : s +:+ EmptyString = s.
Proof. induction s as [|c s IH]; [reflexivity|]. now rewrite str_app_cons, IH. Qed.

Lemma str_app_assoc s t u : (s +:+ t) +:+ u = s +:+ (t +:+ u).
Proof.
  induction s as [|c s IH]; [reflexivity|]. now rewrite !str_app_cons, IH.
Qed.

Lemma str_compare_refl s : (s ?= s)%string = Eq.
Proof.
  induction s as [|c s IH]; [reflexivity|]. simpl.
  unfold Ascii.compare. now rewrite N.compare_refl.
Qed.

Lemma str_compare_lt_trans a : forall b c,
  (a ?= b)%string = Lt -> (b ?= c)%string = Lt -> (a ?= c)%string = Lt.
Proof.
  induction a as [|x a IH]; intros [|y b] [|z c]; simpl; try congruence.
  unfold Ascii.compare.
  destruct (N.compare_spec (N_of_ascii x) (N_of_ascii y)) as [Exy|Exy|Exy];
    destruct (N.compare_spec (N_of_ascii y) (N_of_ascii z)) as [Eyz|Eyz|Eyz];
    try discriminate; intros Hab Hbc.
  - rewrite Exy, Eyz, N.compare_refl. now apply (IH b).
  - rewrite Exy. now apply N.compare_lt_iff in Eyz as ->.
  - rewrite <- Eyz. now apply N.compare_lt_iff in Exy as ->.
  - assert (H : (N_of_ascii x < N_of_ascii z)%N) by lia.
    now apply N.compare_lt_iff in H as ->.
Qed.

Lemma str_ltb_lt a b : String.ltb a b = true <-> (a ?= b)%string = Lt.
Proof. unfold String.ltb. destruct (a ?= b)%string; split; congruence. Qed.

Lemma str_ltb_asym a b : String.ltb a b = true -> String.ltb b a = false.
Proof.
  unfold String.ltb. rewrite (String.compare_antisym b a).
  now destruct (a ?= b)%string.
Qed.

Lemma str_leb_trans a b c :
  String.ltb b a = false -> String.ltb c b = false -> String.ltb c a = false.
Proof.
  intros Hba Hcb. destruct (String.ltb c a) eqn:Hca; [|reflexivity].
  apply str_ltb_lt in Hca.
  destruct (c ?= b)%string eqn:E.
  - apply String.compare_eq_iff in E. subst c.
    apply str_ltb_lt in Hca. congruence.
  - apply str_ltb_lt in E. congruence.
  - assert (Hbc : (b ?= c)%string = Lt)
      by (rewrite String.compare_antisym, E; reflexivity).
    pose proof (str_compare_lt_trans _ _ _ Hbc Hca) as H.
    apply str_ltb_lt in H. congruence.
Qed.

Lemma key_ltb_asym a b : key_ltb a b = true -> key_ltb b a = false.
Proof.
  unfold key_ltb. destruct (Z.eqb_spec (fst a) (fst b)) as [E|E].
  - rewrite E, Z.eqb_refl. apply str_ltb_asym.
  - destruct (Z.eqb_spec (fst b) (fst a)); [congruence|]. lia.
Qed.

Lemma key_leb_trans a b c :
  key_ltb b a = false -> key_ltb c b = false -> key_ltb c a = false.
Proof.
  unfold key_ltb.
  destruct (Z.eqb_spec (fst b) (fst a)) as [E1|E1],
           (Z.eqb_spec (fst c) (fst b)) as [E2|E2],
           (Z.eqb_spec (fst c) (fst a)) as [E3|E3];
    try lia; try apply str_leb_trans.
Qed.

Lemma key_ltb_lt a b : key_ltb a b = true <-> key_lt a b.
Proof.
  unfold key_ltb, key_lt, str_lt.
  destruct (Z.eqb_spec (fst a) (fst b)) as [E|E].
  - rewrite str_ltb_lt. split; [now right|]. intros [H|[_ H]]; [lia|exact H].
  - rewrite Z.ltb_lt. split; [now left|]. intros [H|[H _]]; [exact H|contradiction].
Qed.

Lemma key_ltb_le a b : key_ltb b a = false <-> key_le a b.
Proof.
  unfold key_ltb, key_le, str_le.
  destruct (Z.eqb_spec (fst b) (fst a)) as [E|E].
  - unfold String.ltb. rewrite (String.compare_antisym (snd a) (snd b)).
    destruct (snd b ?= snd a)%string; simpl; split; try congruence;
      try (intros _; right; split; [easy|congruence]);
      intros [H|[_ H]]; try lia; congruence.
  - rewrite Z.ltb_ge. split; [intros; left; lia|].
    intros [H|[H _]]; [lia|congruence].
Qed.

(** ** What the regular expression matches *)

Lemma space_not_digit c : is_space c = true -> is_digit c = false.
Proof. destruct c as [[] [] [] [] [] [] [] []]; vm_compute; congruence. Qed.

Lemma digit_is_word c : is_digit c = true -> is_word c = true.
Proof. unfold is_word. now intros ->. Qed.

Lemma span_app cls s : fst (span cls s) +:+ snd (span cls s) = s.
Proof.
  induction s as [|c s IH]; [reflexivity|]. simpl.
  destruct (cls c); simpl; [|reflexivity]. now rewrite str_app_cons, IH.
Qed.

Lemma span_all cls s : all_chars cls (fst (span cls s)) = true.
Proof.
  induction s as [|c s IH]; [reflexivity|]. simpl.
  destruct (cls c) eqn:E; simpl; [|reflexivity]. now rewrite E.
Qed.

Lemma span_stop cls s :
  match first_char (snd (span cls s)) with Some c => cls c = false | None => True end.
Proof.
  induction s as [|c s IH]; [exact I|]. simpl.
  destruct (cls c) eqn:E; simpl; [exact IH|exact E].
Qed.

Lemma span_exact cls run rest :
  all_chars cls run = true ->
  match first_char rest with Some c => cls c = false | None => True end ->
  span cls (run +:+ rest) = (run, rest).
Proof.
  intros Hrun Hrest. induction run as [|c run IH].
  - rewrite str_app_nil_l. destruct rest as [|c rest]; [reflexivity|].
    simpl in *. now rewrite Hrest.
  - simpl in Hrun. apply andb_true_iff in Hrun as [Hc Hrun].
    rewrite str_app_cons. simpl. rewrite Hc, (IH Hrun). reflexivity.
Qed.

Lemma last_char_snoc s c : last_char (s +:+ String c EmptyString) = Some c.
Proof.
  induction s as [|d s IH]; [reflexivity|].
  rewrite str_app_cons. simpl. rewrite IH.
  now destruct (s +:+ String c EmptyString) eqn:E; [destruct s; discriminate|].
Qed.

Lemma last_char_all cls s :
  all_chars cls s = true -> s <> EmptyString ->
  exists c, last_char s = Some c /\ cls c = true.
Proof.
  induction s as [|c s IH]; [congruence|]. simpl. intros H _.
  apply andb_true_iff in H as [Hc Hs].
  destruct s as [|d s]; [now exists c|]. apply (IH Hs). congruence.
Qed.

Lemma length_app_str s t :
  String.length (s +:+ t) = (String.length s + String.length t)%nat.
Proof.
  induction s as [|c s IH]; [reflexivity|]. rewrite str_app_cons. simpl. now rewrite IH.
Qed.

(** Giving digits back never helps [{2,}\b]: inside a run of digits there
    is no word boundary. *)
Lemma greedy_digits s : forall acc,
  (acc <> EmptyString -> word_at (last_char acc) = true) ->
  greedy is_digit s acc group_end
  = group_end (acc +:+ fst (span is_digit s)) (snd (span is_digit s)).
Proof.
  induction s as [|c s IH]; intros acc Hacc; simpl.
  - now rewrite str_app_nil_r.
  - destruct (is_digit c) eqn:Hc; simpl; [|now rewrite str_app_nil_r].
    rewrite IH by (intros _; rewrite last_char_snoc; simpl; now apply digit_is_word).
    rewrite str_app_assoc, str_app_cons, str_app_nil_l.
    destruct (group_end _ _) eqn:E; [reflexivity|].
    unfold group_end, word_boundary. cbn [first_char word_at].
    rewrite (digit_is_word _ Hc).
    destruct acc as [|a acc]; [reflexivity|].
    rewrite Hacc by discriminate. cbn [xorb]. now rewrite andb_false_r.
Qed.

(** Giving white space back never helps either: the group cannot start on
    a white-space character. *)
Lemma greedy_spaces s : forall acc,
  greedy is_space s acc (fun _ s1 => greedy is_digit s1 EmptyString group_end)
  = greedy is_digit (snd (span is_space s)) EmptyString group_end.
Proof.
  set (D := fun s1 => greedy is_digit s1 EmptyString group_end).
  change (forall acc, greedy is_space s acc (fun _ => D) = D (snd (span is_space s))).
  induction s as [|c s IH]; intros acc; [reflexivity|].
  cbn [greedy span]. destruct (is_space c) eqn:Hc; cbn [fst snd]; [|reflexivity].
  rewrite IH. destruct (D (snd (span is_space s))) eqn:E; [reflexivity|].
  subst D. cbn [greedy]. now rewrite (space_not_digit _ Hc).
Qed.

Lemma re_match_span content :
  re_match content
  = let s1 := snd (span is_space content) in
    group_end (fst (span is_digit s1)) (snd (span is_digit s1)).
Proof.
  unfold re_match. rewrite greedy_spaces, greedy_digits by congruence.
  now rewrite str_app_nil_l.
Qed.

Lemma re_match_Some content ds :
  re_match content = Some ds <-> numeric_prefix content ds.
Proof.
  rewrite re_match_span. cbv zeta. split.
  - unfold group_end. intros H.
    destruct (2 <=? _)%nat eqn:Hlen; [|discriminate]. simpl in H.
    destruct (word_boundary _ _) eqn:Hb; [|discriminate].
    injection H as <-. apply Nat.leb_le in Hlen.
    set (s1 := snd (span is_space content)) in *.
    exists (fst (span is_space content)), (snd (span is_digit s1)).
    rewrite span_app. subst s1. rewrite span_app.
    repeat split; auto using span_all.
    destruct (last_char_all is_digit _ (span_all is_digit (snd (span is_space content))))
      as (c & Hl & Hc).
    { intros E. rewrite E in Hlen. simpl in Hlen. lia. }
    unfold word_boundary in Hb. rewrite Hl in Hb. simpl in Hb.
    rewrite (digit_is_word _ Hc) in Hb. simpl in Hb.
    now apply negb_true_iff in Hb.
  - intros (ws & rest & -> & Hws & Hds & Hlen & Hrest).
    assert (Hne : ds <> EmptyString) by (intros ->; simpl in Hlen; lia).
    rewrite (span_exact is_space ws (ds +:+ rest)); auto.
    + simpl. rewrite (span_exact is_digit ds rest); auto.
      * simpl. unfold group_end.
        apply Nat.leb_le in Hlen. rewrite Hlen. simpl.
        destruct (last_char_all is_digit ds Hds Hne) as (c & -> & Hc).
        unfold word_boundary. simpl. rewrite (digit_is_word _ Hc), Hrest. reflexivity.
      * destruct rest as [|c rest]; [exact I|]. simpl in *.
        destruct (is_digit c) eqn:E; [|reflexivity].
        rewrite (digit_is_word _ E) in Hrest. discriminate.
    + destruct ds as [|d ds]; [congruence|]. rewrite str_app_cons. simpl.
      simpl in Hds. apply andb_true_iff in Hds as [Hd _].
      destruct (is_space d) eqn:E; [|reflexivity].
      rewrite (space_not_digit _ E) in Hd. discriminate.
Qed.

Lemma re_match_None content :
  re_match content = None <-> forall ds, ~ numeric_prefix content ds.
Proof.
  split.
  - intros H ds Hp. apply re_match_Some in Hp. congruence.
  - intros H. destruct (re_match content) as [ds|] eqn:E; [|reflexivity].
    apply re_match_Some in E. now apply H in E.
Qed.

(** ** The order of the queue *)

Lemma StronglySorted_weaken {A} (R S : A -> A -> Prop) l :
  (forall x y, R x y -> S x y) -> StronglySorted R l -> StronglySorted S l.
Proof.
  intros HRS. induction 1 as [|x l Hl IH Hx]; constructor; [exact IH|].
  rewrite List.Forall_forall in *. auto.
Qed.

Lemma key_with_prefix t ds :
  numeric_prefix (content_of t) ds -> parse_order_key t = (int ds, created_of t).
Proof.
  intros H. apply re_match_Some in H.
  unfold parse_order_key, prefix_of. fold (content_of t). now rewrite H.
Qed.

Lemma key_without_prefix t :
  (forall ds, ~ numeric_prefix (content_of t) ds) ->
  parse_order_key t = (sentinel, created_of t).
Proof.
  intros H. apply re_match_None in H.
  unfold parse_order_key, prefix_of. fold (content_of t). now rewrite H.
Qed.

Lemma tasks_sorted_before tasks a b :
  In a tasks -> In b tasks -> task_lt a b ->
  before_in (tasks_sorted tasks) a b /\ ~ before_in (tasks_sorted tasks) b a.
Proof.
  intros Ha Hb Hlt. apply key_ltb_lt in Hlt.
  exact (sorted_before key_ltb parse_order_key key_ltb_asym key_leb_trans
           tasks a b Ha Hb Hlt).
Qed.

Lemma tasks_sorted_perm tasks : Permutation tasks (tasks_sorted tasks).
Proof. apply sorted_perm. Qed.

Lemma tasks_sorted_sorted tasks : StronglySorted task_le (tasks_sorted tasks).
Proof.
  eapply StronglySorted_weaken;
    [|exact (sorted_sorted key_ltb parse_order_key key_ltb_asym key_leb_trans tasks)].
  intros x y H. now apply key_ltb_le.
Qed.

Lemma tasks_sorted_head_least tasks head rest :
  tasks_sorted tasks = head :: rest ->
  forall t, In t tasks -> task_le head t.
Proof.
  intros E t Ht. pose proof (tasks_sorted_sorted tasks) as Hs.
  apply (Permutation_in _ (tasks_sorted_perm tasks)) in Ht.
  rewrite E in Hs, Ht. inversion Hs as [|? ? _ Hall]; subst.
  destruct Ht as [<-|Ht].
  - right. split; [reflexivity|]. unfold str_le. now rewrite str_compare_refl.
  - rewrite List.Forall_forall in Hall. now apply Hall.
Qed.

(** C1. [sorted(tasks, key=parse_order_key)] rearranges the tasks into
    ascending order of the pair (numeric prefix, created_at): the prefix is
    the integer value of a run of at least two digits at the start of the
    content, after optional white space and ended by a word boundary, and
    the sentinel otherwise; a task whose content starts with "02 " comes
    strictly in front of one whose content starts with "10 "; with equal
    prefix components the smaller created_at string comes strictly in
    front; and the first element, the head, is below every task. *)
Theorem tasks_sorted_by_prefix_then_created (tasks : list task) :
  Permutation tasks (tasks_sorted tasks)
  /\ StronglySorted task_le (tasks_sorted tasks)
  /\ (forall t ds, numeric_prefix (content_of t) ds ->
        parse_order_key t = (int ds, created_of t))
  /\ (forall t, (forall ds, ~ numeric_prefix (content_of t) ds) ->
        parse_order_key t = (sentinel, created_of t))
  /\ (forall a b x y, In a tasks -> In b tasks ->
        content a = Some ("02 " +:+ x) -> content b = Some ("10 " +:+ y) ->
        before_in (tasks_sorted tasks) a b /\ ~ before_in (tasks_sorted tasks) b a)
  /\ (forall a b, In a tasks -> In b tasks ->
        fst (parse_order_key a) = fst (parse_order_key b) ->
        str_lt (created_of a) (created_of b) ->
        before_in (tasks_sorted tasks) a b /\ ~ before_in (tasks_sorted tasks) b a)
  /\ (forall head rest, tasks_sorted tasks = head :: rest ->
        forall t, In t tasks -> task_le head t).
Proof.
  split; [apply tasks_sorted_perm|].
  split; [apply tasks_sorted_sorted|].
  split; [exact key_with_prefix|].
  split; [exact key_without_prefix|].
  split; [|split].
  - intros a b x y Ha Hb Ea Eb. apply tasks_sorted_before; auto.
    left. unfold parse_order_key, prefix_of. rewrite Ea, Eb.
    change (re_match (default EmptyString (Some ("02 " +:+ x)))) with (Some "02"%string).
    change (re_match (default EmptyString (Some ("10 " +:+ y)))) with (Some "10"%string).
    vm_compute. reflexivity.
  - intros a b Ha Hb Ep Hc. apply tasks_sorted_before; auto.
    right. split; [exact Ep|exact Hc].
  - apply tasks_sorted_head_least.
Qed.

Lemma tasks_sorted_scenario :
  tasks_sorted [dishes; trash; wipe] = [trash; dishes; wipe]
  /\ before_in (tasks_sorted [dishes; trash; wipe]) trash dishes
  /\ ~ before_in (tasks_sorted [dishes; trash; wipe]) dishes trash.
Proof.
  split; [reflexivity|].
  refine (proj1 (proj2 (proj2 (proj2 (proj2
            (tasks_sorted_by_prefix_then_created [dishes; trash; wipe])))))
          trash dishes "trash" "dishes" _ _ eq_refl eq_refl);
    simpl; auto.
Defined.

(** C2.  The code at a prefix of ten digits.  The comment on [QUEUES] says
    that a task without numeric prefix sorts after the prefixed items; with
    the finite sentinel [10**9] a task whose prefix is 2000000000 comes out
    behind a task without prefix, and a prefix of 1000000000 ties with it,
    so that the creation timestamps decide. *)
Lemma large_prefix_sorts_after_unprefixed :
  numeric_prefix (content_of deep_clean) "2000000000"
  /\ numeric_prefix (content_of attic) "1000000000"
  /\ (forall ds, ~ numeric_prefix (content_of wipe) ds)
  /\ tasks_sorted [deep_clean; wipe] = [wipe; deep_clean]
  /\ tasks_sorted [attic; wipe] = [wipe; attic]
  /\ ~ before_in (tasks_sorted [deep_clean; wipe]) deep_clean wipe.
Proof.
  split; [now apply re_match_Some|].
  split; [now apply re_match_Some|].
  split; [now apply re_match_None|].
  split; [reflexivity|]. split; [reflexivity|].
  change (tasks_sorted [deep_clean; wipe]) with [wipe; deep_clean].
  intros (l1 & l2 & l3 & E).
  destruct l1 as [|z l1]; [discriminate|].
  destruct l1 as [|z' l1]; [destruct l2; discriminate|].
  destruct l1; discriminate.
Qed.

(** A task whose numeric prefix is below the sentinel [10^9] comes strictly
    in front of every task without a numeric prefix, whatever the creation
    timestamps. *)
Theorem prefixed_below_sentinel_sorts_first (tasks : list task) (a b : task) (ds : string) :
  In a tasks -> In b tasks ->
  numeric_prefix (content_of a) ds ->
  int ds < sentinel ->
  (forall ds', ~ numeric_prefix (content_of b) ds') ->
  before_in (tasks_sorted tasks) a b /\ ~ before_in (tasks_sorted tasks) b a.
Proof.
  intros Ha Hb Hpa Hlt Hpb. apply tasks_sorted_before; auto.
  left. rewrite (key_with_prefix _ _ Hpa), (key_without_prefix _ Hpb). exact Hlt.
Qed.

Lemma prefixed_below_sentinel_sorts_first_witness :
  before_in (tasks_sorted [wipe; dishes]) dishes wipe
  /\ ~ before_in (tasks_sorted [wipe; dishes]) wipe dishes.
Proof.
  apply (prefixed_below_sentinel_sorts_first [wipe; dishes] dishes wipe "10").
  - simpl. auto.
  - simpl. auto.
  - now apply re_match_Some.
  - reflexivity.
  - now apply re_match_None.
Defined.

(** ** The resolver: exact names first *)

Lemma find_first {A} (f : A -> bool) (l : list A) (x : A) :
  List.find f l = Some x <->
  exists l1 l2, l = l1 ++ x :: l2 /\ f x = true /\ forall y, In y l1 -> f y = false.
Proof.
  induction l as [|z l IH]; simpl.
  - split; [discriminate|]. intros (l1 & l2 & E & _). destruct l1; discriminate.
  - destruct (f z) eqn:Ez; split.
    + intros [= ->]. exists [], l. simpl. tauto.
    + intros ([|z' l1] & l2 & E & Hx & Hl1); simplify_eq/=; [reflexivity|].
      rewrite (Hl1 z') in Ez by auto. discriminate.
    + intros H. apply IH in H as (l1 & l2 & -> & Hx & Hl1).
      exists (z :: l1), l2. simpl. split; [reflexivity|]. split; [exact Hx|].
      intros y [<-|Hy]; auto.
    + intros ([|z' l1] & l2 & E & Hx & Hl1); simplify_eq/=; [congruence|].
      apply IH. exists l1, l2. auto.
Qed.

Lemma find_None {A} (f : A -> bool) (l : list A) :
  List.find f l = None <-> forall y, In y l -> f y = false.
Proof.
  split; [intros H y Hy; exact (List.find_none f l H y Hy)|].
  intros H. destruct (List.find f l) as [x|] eqn:E; [|reflexivity].
  apply List.find_some in E as [Hin Hx]. rewrite (H x Hin) in Hx. discriminate.
Qed.

Lemma name_is_full p nm : name_is p (strip nm) = true <-> full_name_is p nm.
Proof. unfold name_is, full_name_is. apply String.eqb_eq. Qed.

Lemma name_is_not_full p nm : name_is p (strip nm) = false <-> ~ full_name_is p nm.
Proof. unfold name_is, full_name_is. apply String.eqb_neq. Qed.

Lemma get_project_id_by_name_run nm w :
  faults w (length (log w)) = Json ->
  get_project_id_by_name nm w
  = (match resolve_name (st_projects (remote w)) nm with
     | Ok r => Ok r
     | Raise e => Raise e
     end, listed w).
Proof.
  intros Hf. unfold get_project_id_by_name, bind, list_projects, _req.
  rewrite Hf. simpl.
  destruct (resolve_name _ nm); reflexivity.
Qed.

Lemma resolve_name_no_exact projects nm :
  (forall p, In p projects -> ~ full_name_is p nm) ->
  resolve_name projects nm
  = if contains_char slash nm
    then _resolve_hierarchical_project projects nm
    else Ok None.
Proof.
  intros Hno. unfold resolve_name.
  assert (E : exact_match projects nm = None).
  { apply find_None. intros y Hy. now apply name_is_not_full, Hno. }
  now rewrite E.
Qed.

(** C4. When some project's full name equals the path (both trimmed and
    lower-cased), the resolver returns the identifier of the first such
    project of the listing, whether or not the path contains "/" and
    whatever a hierarchical reading of the path would reach; only when no
    full name matches does a path with "/" go to the hierarchical
    resolution, and a path without "/" is not found.  The client issues
    the listing call and nothing else. *)
Theorem exact_name_match_first (projects : list project) (nm : string) :
  ((exists p, In p projects /\ full_name_is p nm) ->
     exists l1 p l2,
       projects = l1 ++ p :: l2 /\ full_name_is p nm /\
       (forall q, In q l1 -> ~ full_name_is q nm) /\
       resolve_name projects nm = Ok (Some (proj_id p)))
  /\ ((forall p, In p projects -> ~ full_name_is p nm) ->
       resolve_name projects nm
       = if contains_char slash nm
         then _resolve_hierarchical_project projects nm
         else Ok None)
  /\ (forall w, st_projects (remote w) = projects ->
        faults w (length (log w)) = Json ->
        get_project_id_by_name nm w
        = (match resolve_name projects nm with Ok r => Ok r | Raise e => Raise e end,
           listed w)).
Proof.
  split; [|split].
  - intros (p & Hin & Hp).
    destruct (exact_match projects nm) as [p0|] eqn:E.
    + pose proof E as E'. apply find_first in E' as (l1 & l2 & -> & Hp0 & Hl1).
      exists l1, p0, l2. split; [reflexivity|].
      split; [now apply name_is_full|].
      split; [intros q Hq; now apply name_is_not_full, Hl1|].
      unfold resolve_name. now rewrite E.
    + exfalso. unfold exact_match in E.
      pose proof (proj1 (find_None _ _) E p Hin) as H.
      apply name_is_not_full in H. contradiction.
  - apply resolve_name_no_exact.
  - intros w <- Hf. now apply get_project_id_by_name_run.
Qed.

Example exact_name_beats_chain :
  resolve_name chores_listing "Chores/Rotating Chore Queue" = Ok (Some (IInt 3))
  /\ _resolve_hierarchical_project chores_listing "Chores/Rotating Chore Queue"
     = Ok (Some (IInt 2)).
Proof. split; reflexivity. Qed.

Lemma exact_name_match_first_witness :
  exists l1 p l2,
    chores_listing = l1 ++ p :: l2 /\
    full_name_is p "Chores/Rotating Chore Queue" /\
    (forall q, In q l1 -> ~ full_name_is q "Chores/Rotating Chore Queue") /\
    resolve_name chores_listing "Chores/Rotating Chore Queue" = Ok (Some (proj_id p)).
Proof.
  apply (proj1 (exact_name_match_first chores_listing "Chores/Rotating Chore Queue")).
  exists (mk_project (IInt 3) " chores/rotating chore queue" None).
  split; [simpl; auto|reflexivity].
Defined.

(** ** The resolver: hierarchical paths *)

Lemma split_not_nil sep s : split sep s <> [].
Proof.
  destruct s as [|c s]; simpl; [discriminate|].
  destruct (Ascii.eqb c sep); [discriminate|]. destruct (split sep s); discriminate.
Qed.

Lemma build_maps_snoc projects p :
  build_maps (projects ++ [p])
  = (<[proj_id p := p]> (fst (build_maps projects)),
     add_child (snd (build_maps projects)) p).
Proof. unfold build_maps. now rewrite foldl_app. Qed.

Lemma project_map_lookup projects :
  List.NoDup (map proj_id projects) ->
  forall p, In p projects -> fst (build_maps projects) !! proj_id p = Some p.
Proof.
  induction projects as [|q projects IH] using rev_ind; intros Hnd p Hin; [destruct Hin|].
  rewrite build_maps_snoc. cbn [fst].
  rewrite map_app in Hnd. apply NoDup_ListNoDup, NoDup_app in Hnd as (Hnd & Hq & _).
  apply NoDup_ListNoDup in Hnd.
  apply in_app_or in Hin as [Hin|[<-|[]]].
  - rewrite lookup_insert_ne; [now apply IH|].
    intros E. apply (Hq (proj_id p)).
    + apply list_elem_of_In, in_map, Hin.
    + rewrite <- E. simpl. left.
  - apply lookup_insert_eq.
Qed.

Lemma add_child_lookup cm p n :
  default [] (add_child cm p !! n)
  = default [] (cm !! n)
    ++ (if bool_decide (parent_id p = Some n) && truthy_ident n then [proj_id p] else []).
Proof.
  unfold add_child. destruct (parent_id p) as [parent|] eqn:Ep.
  2:{ rewrite bool_decide_eq_false_2 by discriminate. simpl. now rewrite app_nil_r. }
  destruct (decide (parent = n)) as [->|Hne].
  - rewrite bool_decide_eq_true_2 by reflexivity. simpl.
    destruct (truthy_ident n); [|now rewrite app_nil_r].
    destruct (cm !! n) as [ids|] eqn:E.
    + rewrite lookup_alter_eq, E. reflexivity.
    + rewrite lookup_alter_eq, lookup_insert_eq. reflexivity.
  - rewrite bool_decide_eq_false_2 by congruence. simpl. rewrite app_nil_r.
    destruct (truthy_ident parent); [|reflexivity].
    destruct (cm !! parent); rewrite lookup_alter_ne by exact Hne; [reflexivity|].
    now rewrite lookup_insert_ne.
Qed.

Lemma children_map_lookup projects n :
  (forall p i, In p projects -> parent_id p = Some i -> truthy_ident i = true) ->
  default [] (snd (build_maps projects) !! n) = map proj_id (children_of projects n).
Proof.
  induction projects as [|q projects IH] using rev_ind; intros Ht; [reflexivity|].
  rewrite build_maps_snoc. cbn [snd]. rewrite add_child_lookup.
  unfold children_of in *. rewrite List.filter_app, map_app.
  rewrite IH by (intros p i Hp; apply Ht, in_or_app; now left).
  f_equal. cbn [List.filter]. destruct (bool_decide (parent_id q = Some n)) eqn:E.
  - apply bool_decide_eq_true_1 in E.
    rewrite (Ht q n) by (auto using in_or_app, in_eq). reflexivity.
  - reflexivity.
Qed.

Section Refinement.
Variable projects : list project.
Hypothesis Hforest : forest_listing projects.

Lemma find_child_refines part cs :
  (forall c, In c cs -> In c projects) ->
  find_child (fst (build_maps projects)) part (map proj_id cs)
  = Ok (proj_id <$> List.find (fun c => name_is c part) cs).
Proof.
  induction cs as [|c cs IH]; intros Hin; [reflexivity|]. simpl.
  rewrite (project_map_lookup _ (proj1 Hforest) c) by (apply Hin; now left).
  destruct (name_is c part); [reflexivity|].
  apply IH. intros c' Hc'. apply Hin. now right.
Qed.

Lemma children_of_listed n c : In c (children_of projects n) -> In c projects.
Proof. unfold children_of. intros H. now apply List.filter_In in H as [H _]. Qed.

Lemma walk_refines parts : forall current,
  walk (fst (build_maps projects)) (snd (build_maps projects)) current parts = Ok (walk_path projects current parts).
Proof.
  induction parts as [|part parts IH]; intros current; [reflexivity|]. simpl.
  rewrite children_map_lookup by exact (proj2 Hforest).
  rewrite find_child_refines by apply children_of_listed.
  destruct (List.find _ _) as [c|]; simpl; [apply IH|reflexivity].
Qed.

Lemma try_roots_refines parts roots :
  try_roots (fst (build_maps projects)) (snd (build_maps projects)) parts (map proj_id roots)
  = Ok (first_success (fun r => walk_path projects (proj_id r) parts) roots).
Proof.
  induction roots as [|r roots IH]; [reflexivity|]. simpl.
  rewrite walk_refines. destruct (walk_path projects (proj_id r) parts); [reflexivity|].
  exact IH.
Qed.

Lemma root_candidates_refines first :
  root_candidates projects first
  = map proj_id (List.filter (fun p => is_root p && name_is p first) projects).
Proof.
  unfold root_candidates. f_equal. apply List.filter_ext_in. intros p Hp.
  f_equal. unfold is_root, truthy. destruct (parent_id p) as [i|] eqn:E; [|reflexivity].
  now rewrite (proj2 Hforest p i Hp E).
Qed.

Lemma hierarchical_refines path :
  _resolve_hierarchical_project projects path = Ok (resolve_path projects path).
Proof.
  unfold _resolve_hierarchical_project, resolve_path, segments.
  destruct (map strip (split slash path)) as [|first parts] eqn:E.
  - exfalso. destruct (split slash path) eqn:E'; [|discriminate].
    now apply split_not_nil in E'.
  - rewrite root_candidates_refines. apply try_roots_refines.
Qed.
End Refinement.

(** On the listing of a forest the resolver returns what the walk over the
    listing returns. *)
Theorem hierarchical_resolution (projects : list project) (path : string) :
  forest_listing projects ->
  contains_char slash path = true ->
  (forall p, In p projects -> ~ full_name_is p path) ->
  resolve_name projects path = Ok (resolve_path projects path).
Proof.
  intros Hf Hslash Hno.
  rewrite (resolve_name_no_exact projects path Hno), Hslash.
  now apply hierarchical_refines.
Qed.

Lemma forest_nested_listing : forest_listing nested_listing.
Proof.
  split.
  - apply NoDup_ListNoDup, (bool_decide_unpack _). vm_compute. reflexivity.
  - intros p i Hp E. simpl in Hp.
    repeat (destruct Hp as [<-|Hp]; [simpl in E; try discriminate; now injection E as <-|]).
    destruct Hp.
Qed.

Lemma hierarchical_resolution_witness :
  resolve_name nested_listing "Chores / rotating chore queue"
  = Ok (resolve_path nested_listing "Chores / rotating chore queue").
Proof.
  apply (hierarchical_resolution nested_listing "Chores / rotating chore queue").
  - exact forest_nested_listing.
  - reflexivity.
  - intros p Hp. simpl in Hp.
    repeat (destruct Hp as [<-|Hp]; [vm_compute; discriminate|]).
    destruct Hp.
Defined.

Example hierarchical_examples :
  resolve_path nested_listing "Chores / rotating chore queue" = Some (IInt 4)
  /\ resolve_name nested_listing "Chores/Nonexistent" = Ok None
  /\ resolve_name nested_listing "chores/archive" = Ok (Some (IInt 2)).
Proof. repeat split; reflexivity. Qed.

(** ** Runs of the client *)

Lemma req_run r w :
  _req r w
  = match faults w (length (log w)) with
    | Refused code text => (Raise (RuntimeError code text), logged r w)
    | NoJson => (Ok None, served r w)
    | Json => (Ok (Some (fst (serve r (remote w)))), served r w)
    end.
Proof. unfold _req, logged, served. now destruct (faults w (length (log w))). Qed.

Lemma bind_Ok {A B} (m : M A) (k : A -> M B) w b w' :
  bind m k w = (Ok b, w') -> exists a w1, m w = (Ok a, w1) /\ k a w1 = (Ok b, w').
Proof.
  unfold bind. destruct (m w) as [[a|e] w1]; [|discriminate]. intros H. now exists a, w1.
Qed.

Lemma bind_run {A B} (m : M A) (k : A -> M B) w a w1 :
  m w = (Ok a, w1) -> bind m k w = k a w1.
Proof. unfold bind. now intros ->. Qed.

Lemma bind_raise {A B} (m : M A) (k : A -> M B) w e w1 :
  m w = (Raise e, w1) -> bind m k w = (Raise e, w1).
Proof. unfold bind. now intros ->. Qed.

Lemma listed_logged w : listed w = logged GET_projects w.
Proof. reflexivity. Qed.

(** The resolver issues the listing call and nothing else, whatever the
    answer. *)
Lemma get_project_id_by_name_world nm w :
  snd (get_project_id_by_name nm w) = listed w.
Proof.
  unfold get_project_id_by_name, list_projects, bind. rewrite req_run.
  destruct (faults w (length (log w))); try reflexivity. simpl.
  now destruct (resolve_name _ nm).
Qed.

Lemma list_tasks_run pid w :
  list_tasks pid w
  = (match faults w (length (log w)) with
     | Refused code text => Raise (RuntimeError code text)
     | NoJson => Ok []
     | Json => Ok (List.filter (fun t => bool_decide (project_id t = pid))
                               (st_tasks (remote w)))
     end, logged (GET_tasks pid) w).
Proof.
  unfold list_tasks, bind. rewrite req_run.
  now destruct (faults w (length (log w))).
Qed.

Lemma update_task_due_run tid ds dl w :
  update_task_due tid ds dl w
  = match faults w (length (log w)) with
    | Refused code text =>
        (Raise (RuntimeError code text), logged (POST_task_due tid ds dl) w)
    | _ => (Ok tt, served (POST_task_due tid ds dl) w)
    end.
Proof.
  unfold update_task_due, bind. rewrite req_run.
  now destruct (faults w (length (log w))).
Qed.

Lemma update_task_due_Ok tid ds dl w w' :
  update_task_due tid ds dl w = (Ok tt, w') -> w' = served (POST_task_due tid ds dl) w.
Proof.
  rewrite update_task_due_run. destruct (faults w (length (log w))); congruence.
Qed.

Lemma update_task_labels_run tid ls w :
  update_task_labels tid ls w
  = match faults w (length (log w)) with
    | Refused code text =>
        (Raise (RuntimeError code text), logged (POST_task_labels tid ls) w)
    | _ => (Ok tt, served (POST_task_labels tid ls) w)
    end.
Proof.
  unfold update_task_labels, bind. rewrite req_run.
  now destruct (faults w (length (log w))).
Qed.

Lemma replay_snoc rs r s : replay (rs ++ [r]) s = snd (serve r (replay rs s)).
Proof. unfold replay. now rewrite fold_left_app. Qed.

Lemma replay_cons r rs s : replay (r :: rs) s = replay rs (snd (serve r s)).
Proof. reflexivity. Qed.

(** The loop over [rest], when it runs to its end: one clearing request
    for each task of [rest] that has a due date, in order, and as many
    counted. *)
Lemma clear_rest_Ok lang rest : forall cleared w m w',
  clear_rest lang rest cleared w = (Ok m, w') ->
  let rs := map (clear_request lang) (List.filter has_due rest) in
  m = (cleared + length rs)%nat
  /\ w' = mk_world (replay rs (remote w)) (faults w) (log w ++ rs) (_label_cache w).
Proof.
  induction rest as [|tsk rest IH]; intros cleared w m w' H; cbn [clear_rest] in H.
  - injection H as <- <-. simpl. split; [lia|]. rewrite app_nil_r. now destruct w.
  - cbn [List.filter]. destruct (has_due tsk).
    + apply bind_Ok in H as ([] & w1 & H1 & H2).
      apply update_task_due_Ok in H1. subst w1.
      apply IH in H2 as [-> ->]. cbn [map length]. split; [lia|].
      unfold served. cbn [remote faults log _label_cache].
      rewrite <- app_assoc. reflexivity.
    + now apply IH in H.
Qed.

Lemma clear_rest_reliable lang rest : forall cleared w,
  reliable w ->
  let rs := map (clear_request lang) (List.filter has_due rest) in
  clear_rest lang rest cleared w
  = (Ok (cleared + length rs)%nat,
     mk_world (replay rs (remote w)) (faults w) (log w ++ rs) (_label_cache w)).
Proof.
  induction rest as [|tsk rest IH]; intros cleared w Hr; cbn [clear_rest].
  - simpl. rewrite app_nil_r, Nat.add_0_r. now destruct w.
  - cbn [List.filter]. destruct (has_due tsk); [|now apply IH].
    erewrite bind_run by (rewrite update_task_due_run, Hr; reflexivity).
    rewrite IH by exact Hr. cbn [map length]. unfold served.
    cbn [remote faults log _label_cache]. rewrite <- app_assoc.
    f_equal. f_equal. lia.
Qed.

(** ** The labeling step *)

Lemma same_but_labels_refl l : Forall2 same_but_labels l l.
Proof. induction l; constructor; [repeat split|assumption]. Qed.

Lemma set_labels_same tid ls l :
  Forall2 same_but_labels l (map (set_labels tid ls) l).
Proof.
  induction l as [|t l IH]; constructor; [|exact IH].
  unfold set_labels. destruct (bool_decide _); repeat split.
Qed.

Lemma labeling_frame_refl w : labeling_frame w w.
Proof.
  repeat split; [apply same_but_labels_refl|].
  exists []. now rewrite app_nil_r.
Qed.

Lemma same_but_labels_trans l1 l2 l3 :
  Forall2 same_but_labels l1 l2 -> Forall2 same_but_labels l2 l3 ->
  Forall2 same_but_labels l1 l3.
Proof.
  intros H. revert l3. induction H as [|x y l1 l2 Hxy _ IH]; intros l3 H3;
    inversion H3; subst; constructor; [|now apply IH].
  unfold same_but_labels in *. intuition congruence.
Qed.

Lemma labeling_frame_trans w1 w2 w3 :
  labeling_frame w1 w2 -> labeling_frame w2 w3 -> labeling_frame w1 w3.
Proof.
  intros (Hf & Hp & Ht & l & Hl & Hall) (Hf' & Hp' & Ht' & l' & Hl' & Hall').
  split; [congruence|]. split; [congruence|].
  split; [eapply same_but_labels_trans; eassumption|].
  exists (l ++ l'). rewrite Hl', Hl, <- app_assoc. split; [reflexivity|].
  now rewrite forallb_app, Hall, Hall'.
Qed.

Lemma labeling_frame_label_request r w :
  label_service_request r = true ->
  labeling_frame w (logged r w) /\ labeling_frame w (served r w).
Proof.
  intros Hr. split.
  - repeat split; [apply same_but_labels_refl|].
    exists [r]. simpl. now rewrite Hr.
  - split; [reflexivity|].
    split; [destruct r; try discriminate; reflexivity|].
    split; [destruct r; try discriminate; apply same_but_labels_refl|].
    exists [r]. simpl. now rewrite Hr.
Qed.

Lemma labeling_frame_cache w c :
  labeling_frame w (mk_world (remote w) (faults w) (log w) c).
Proof.
  repeat split; [apply same_but_labels_refl|]. exists []. simpl. now rewrite app_nil_r.
Qed.

Lemma labeling_frame_label_write tid ls w :
  labeling_frame w (logged (POST_task_labels tid ls) w)
  /\ labeling_frame w (served (POST_task_labels tid ls) w).
Proof.
  split.
  - repeat split; [apply same_but_labels_refl|]. now exists [POST_task_labels tid ls].
  - repeat split; [apply set_labels_same|]. now exists [POST_task_labels tid ls].
Qed.

Lemma labels_frame w : labeling_frame w (snd (_labels w)).
Proof.
  unfold _labels, bind, get_label_cache.
  destruct (_label_cache w); [apply labeling_frame_refl|].
  rewrite req_run.
  destruct (labeling_frame_label_request GET_labels w eq_refl) as [Hl Hs].
  destruct (faults w (length (log w))); simpl; [exact Hl| |];
    (eapply labeling_frame_trans;
       [exact Hs|exact (labeling_frame_cache (served GET_labels w) _)]).
Qed.

Lemma ensure_label_frame pl w : labeling_frame w (snd (ensure_label pl w)).
Proof.
  unfold ensure_label. destruct (String.eqb _ _); [apply labeling_frame_refl|].
  unfold bind. pose proof (labels_frame w) as H1.
  destruct (_labels w) as [[labs|e] w1]; [|exact H1]. simpl in H1.
  destruct (List.find _ labs); [exact H1|].
  rewrite req_run.
  destruct (labeling_frame_label_request (POST_labels (lstrip pl)) w1 eq_refl) as [Hl Hs].
  destruct (faults w1 (length (log w1))); simpl.
  - eapply labeling_frame_trans; eassumption.
  - eapply labeling_frame_trans; [exact H1|].
    eapply labeling_frame_trans;
      [exact Hs|exact (labeling_frame_cache (served (POST_labels (lstrip pl)) w1) _)].
  - eapply labeling_frame_trans; [exact H1|].
    eapply labeling_frame_trans; [exact Hs|].
    exact (labeling_frame_cache (served (POST_labels (lstrip pl)) w1) _).
Qed.

(** ** Which requests a step issues *)

Lemma issues_refl P w : issues P w w.
Proof. exists []. now rewrite app_nil_r. Qed.

Lemma issues_trans P w1 w2 w3 : issues P w1 w2 -> issues P w2 w3 -> issues P w1 w3.
Proof.
  intros (l & E & H) (l' & E' & H'). exists (l ++ l').
  rewrite E', E, <- app_assoc, forallb_app, H, H'. now split.
Qed.



Lemma issues_try {A} P (m : M A) (h : exn -> M A) w :
  issues P w (snd (m w)) ->
  (forall e w1, issues P w1 (snd (h e w1))) ->
  issues P w (snd (try_except m h w)).
Proof.
  intros Hm Hh. unfold try_except. destruct (m w) as [[a|e] w1]; simpl in *; [exact Hm|].
  eapply issues_trans; [exact Hm|apply Hh].
Qed.





Lemma label_head_frame head pl w : labeling_frame w (snd (label_head head pl w)).
Proof.
  unfold label_head, bind. pose proof (ensure_label_frame pl w) as H.
  destruct (ensure_label pl w) as [[lid|e] w1]; simpl in H; [|exact H].
  destruct (_ && _); [|exact H].
  rewrite update_task_labels_run.
  destruct (labeling_frame_label_write (task_id head) (default [] (labels head) ++ [lid]) w1)
    as [Hl Hs].
  destruct (faults w1 (length (log w1))); simpl;
    eapply labeling_frame_trans; eassumption.
Qed.

Lemma label_head_Ok head pl w b w' : label_head head pl w = (Ok b, w') -> b = true.
Proof.
  unfold label_head. intros H.
  apply bind_Ok in H as (lid & w1 & _ & H).
  apply bind_Ok in H as (? & w2 & _ & H). now injection H as <- _.
Qed.


(** The labeling step never raises. *)
Lemma labeling_step_run cfg head w :
  labeling_step cfg head w
  = match string_truthy (promote_label cfg) with
    | Some pl =>
        match label_head head pl w with
        | (Ok b, w') => (Ok b, w')
        | (Raise _, w') => (Ok false, w')
        end
    | None => (Ok false, w)
    end.
Proof.
  unfold labeling_step, try_except. destruct (string_truthy _); [|reflexivity].
  now destruct (label_head head s w) as [[b|e] w'].
Qed.

Lemma labeling_step_total cfg head w :
  exists b, labeling_step cfg head w = (Ok b, snd (labeling_step cfg head w)).
Proof.
  rewrite labeling_step_run. destruct (string_truthy _) as [pl|]; [|now exists false].
  destruct (label_head head pl w) as [[b|e] w']; [now exists b|now exists false].
Qed.

Lemma labeling_step_frame cfg head w :
  labeling_frame w (snd (labeling_step cfg head w)).
Proof.
  rewrite labeling_step_run.
  destruct (string_truthy _) as [pl|]; [|apply labeling_frame_refl].
  pose proof (label_head_frame head pl w) as H.
  now destruct (label_head head pl w) as [[b|e] w'].
Qed.

(** ** The phases of [promote_queue] *)

Lemma tasks_sorted_nil_inv tasks : tasks_sorted tasks = [] -> tasks = [].
Proof.
  intros E. pose proof (tasks_sorted_perm tasks) as H. rewrite E in H.
  now apply Permutation_sym, Permutation_nil in H.
Qed.

Lemma get_project_id_by_name_Ok nm w r w1 :
  get_project_id_by_name nm w = (r, w1) -> w1 = listed w.
Proof. intros H. rewrite <- (get_project_id_by_name_world nm w), H. reflexivity. Qed.

Lemma list_tasks_Ok pid w r w1 :
  list_tasks pid w = (r, w1) -> w1 = logged (GET_tasks pid) w.
Proof. rewrite list_tasks_run. congruence. Qed.

Lemma list_tasks_nonempty pid w t ts w1 :
  list_tasks pid w = (Ok (t :: ts), w1) -> t :: ts = tasks_in pid (remote w).
Proof.
  rewrite list_tasks_run. unfold tasks_in.
  destruct (faults w (length (log w))); congruence.
Qed.

(** From the phases to the run. *)
Lemma promote_queue_compose cfg w pid tasks head rest cleared labeled w4 w5 :
  get_project_id_by_name (project_name cfg) w = (Ok (Some pid), listed w) ->
  truthy_ident pid = true ->
  list_tasks pid (listed w) = (Ok tasks, logged (GET_tasks pid) (listed w)) ->
  tasks_sorted tasks = head :: rest ->
  update_task_due (task_id head) (due_string_of cfg) (language_of cfg)
                  (logged (GET_tasks pid) (listed w))
  = (Ok tt, head_promoted cfg pid head w) ->
  clear_due_step cfg (language_of cfg) rest (head_promoted cfg pid head w)
  = (Ok cleared, w4) ->
  labeling_step cfg head w4 = (Ok labeled, w5) ->
  promote_queue cfg w = (Ok (promoted (project_name cfg) head cleared labeled), w5).
Proof.
  intros H1 Ht H2 Hs H3 H4 H5. unfold promote_queue.
  rewrite (bind_run _ _ _ _ _ H1). cbv zeta. rewrite Ht.
  rewrite (bind_run _ _ _ _ _ H2).
  destruct tasks as [|t ts]; [discriminate|]. rewrite Hs.
  fold (due_string_of cfg) (language_of cfg).
  rewrite (bind_run _ _ _ _ _ H3), (bind_run _ _ _ _ _ H4), (bind_run _ _ _ _ _ H5).
  reflexivity.
Qed.

(** From the run to the phases. *)
Lemma promote_queue_Ok_inv cfg w s w' :
  promote_queue cfg w = (Ok s, w') ->
  sum_status s = status_ok ->
  exists pid head rest cleared labeled w4,
    get_project_id_by_name (project_name cfg) w = (Ok (Some pid), listed w)
    /\ truthy_ident pid = true
    /\ list_tasks pid (listed w)
       = (Ok (tasks_in pid (remote w)), logged (GET_tasks pid) (listed w))
    /\ tasks_sorted (tasks_in pid (remote w)) = head :: rest
    /\ update_task_due (task_id head) (due_string_of cfg) (language_of cfg)
                       (logged (GET_tasks pid) (listed w))
       = (Ok tt, head_promoted cfg pid head w)
    /\ clear_due_step cfg (language_of cfg) rest (head_promoted cfg pid head w)
       = (Ok cleared, w4)
    /\ labeling_step cfg head w4 = (Ok labeled, w')
    /\ s = promoted (project_name cfg) head cleared labeled.
Proof.
  unfold promote_queue. intros H Hs.
  apply bind_Ok in H as (pid & w1 & H1 & H).
  pose proof (get_project_id_by_name_Ok _ _ _ _ H1). subst w1.
  destruct pid as [pid|]; [|injection H as <- _; discriminate].
  destruct (truthy_ident pid) eqn:Ht; [|injection H as <- _; discriminate].
  apply bind_Ok in H as (tasks & w2 & H2 & H).
  pose proof (list_tasks_Ok _ _ _ _ H2). subst w2.
  destruct tasks as [|t ts]; [injection H as <- _; discriminate|].
  pose proof (list_tasks_nonempty _ _ _ _ _ H2) as Etasks.
  change (remote (listed w)) with (remote w) in Etasks. rewrite Etasks in *.
  destruct (tasks_sorted (tasks_in pid (remote w))) as [|head rest] eqn:Esort;
    [discriminate|].
  fold (due_string_of cfg) (language_of cfg) in H.
  apply bind_Ok in H as ([] & w3 & H3 & H).
  pose proof (update_task_due_Ok _ _ _ _ _ H3). subst w3.
  apply bind_Ok in H as (cleared & w4 & H4 & H).
  apply bind_Ok in H as (labeled & w5 & H5 & H).
  injection H as <- <-.
  exists pid, head, rest, cleared, labeled, w4. repeat split; assumption.
Qed.

Lemma clear_due_step_Ok cfg rest w m w' :
  clear_due_step cfg (language_of cfg) rest w = (Ok m, w') ->
  m = length (clear_requests cfg rest)
  /\ w' = mk_world (replay (clear_requests cfg rest) (remote w)) (faults w)
                   (log w ++ clear_requests cfg rest) (_label_cache w).
Proof.
  unfold clear_due_step, clear_requests.
  destruct (default true (clear_due_on_rest cfg)).
  - intros H. now apply clear_rest_Ok in H.
  - intros [= <- <-]. simpl. rewrite app_nil_r. now destruct w.
Qed.



Lemma promote_queue_from_labeling cfg w head cleared w4 labeled w5 :
  reaches_labeling cfg w head cleared w4 ->
  labeling_step cfg head w4 = (Ok labeled, w5) ->
  promote_queue cfg w = (Ok (promoted (project_name cfg) head cleared labeled), w5).
Proof.
  intros (pid & tasks & rest & H1 & Ht & H2 & Hs & H3 & H4) H5.
  eapply promote_queue_compose; eassumption.
Qed.






(** C6, as the code has it.  In a run that ends with status ok and with
    clearing switched on, the requests are, in order: the two listings, the
    due date on the head, one "no due date" request with the configured
    language for each task of [rest] that has a due date, and then requests
    about labels only.  The count reported is the number of those tasks of
    [rest].  Unless the configured due expression is itself "no due date",
    every "no due date" request of the run goes to such a task of [rest]. *)
Theorem clears_exactly_rest_with_due (cfg : config) (w : world) (s : summary) (w' : world) :
  promote_queue cfg w = (Ok s, w') ->
  sum_status s = status_ok ->
  default true (clear_due_on_rest cfg) = true ->
  exists pid head rest labeling,
    tasks_sorted (tasks_in pid (remote w)) = head :: rest
    /\ log w' = log w
         ++ [GET_projects; GET_tasks pid;
             POST_task_due (task_id head) (due_string_of cfg) (language_of cfg)]
         ++ map (fun t => POST_task_due (task_id t) "no due date" (language_of cfg))
                (List.filter has_due rest)
         ++ labeling
    /\ forallb (fun r => label_service_request r || label_write r) labeling = true
    /\ cleared_due_on s = Some (length (List.filter has_due rest))
    /\ (due_string_of cfg <> "no due date"%string ->
        forall tid lang l1 l2,
          log w' = log w ++ l1 ++ POST_task_due tid "no due date" lang :: l2 ->
          exists t, In t rest /\ has_due t = true /\ task_id t = tid).
Proof.
  intros H Hs Hc.
  apply promote_queue_Ok_inv in H as
    (pid & head & rest & cleared & labeled & w4 & _ & _ & _ & Hsort & _ & H4 & H5 & ->);
    [|exact Hs].
  apply clear_due_step_Ok in H4 as [-> ->].
  pose proof (labeling_step_frame cfg head
    (mk_world (replay (clear_requests cfg rest) (remote (head_promoted cfg pid head w)))
              (faults (head_promoted cfg pid head w))
              (log (head_promoted cfg pid head w) ++ clear_requests cfg rest)
              (_label_cache (head_promoted cfg pid head w)))) as (_ & _ & _ & l & El & Hl).
  rewrite H5 in El. cbn [snd] in El.
  exists pid, head, rest, l. split; [exact Hsort|].
  unfold clear_requests in *. rewrite Hc in *.
  assert (Elog : log w' = log w
            ++ [GET_projects; GET_tasks pid;
                POST_task_due (task_id head) (due_string_of cfg) (language_of cfg)]
            ++ map (fun t => POST_task_due (task_id t) "no due date" (language_of cfg))
                   (List.filter has_due rest)
            ++ l).
  { rewrite El. cbn [log head_promoted served logged listed].
    rewrite <- !app_assoc. reflexivity. }
  split; [exact Elog|]. split; [exact Hl|].
  split; [cbn [cleared_due_on promoted]; now rewrite length_map|].
  intros Hds tid lang l1 l2 E. rewrite Elog in E. apply app_inv_head in E.
  assert (Hin : In (POST_task_due tid "no due date" lang)
                   ([GET_projects; GET_tasks pid;
                     POST_task_due (task_id head) (due_string_of cfg) (language_of cfg)]
                    ++ map (fun t => POST_task_due (task_id t) "no due date" (language_of cfg))
                           (List.filter has_due rest) ++ l)).
  { rewrite E. apply in_or_app. right. now left. }
  apply in_app_or in Hin as [Hin|Hin].
  - simpl in Hin. destruct Hin as [Hin|[Hin|[Hin|[]]]]; try discriminate.
    injection Hin as _ Hd _. contradiction.
  - apply in_app_or in Hin as [Hin|Hin].
    + apply in_map_iff in Hin as (t & Et & Ht). injection Et as Et.
      apply List.filter_In in Ht as [Ht Hdue]. now exists t.
    + rewrite forallb_forall in Hl. apply Hl in Hin. discriminate.
Qed.

Lemma clears_exactly_rest_with_due_witness :
  exists pid head rest labeling,
    tasks_sorted (tasks_in pid (remote sample_world)) = head :: rest
    /\ log (snd (promote_queue (queue_cfg "Chore Queue") sample_world))
       = log sample_world
         ++ [GET_projects; GET_tasks pid;
             POST_task_due (task_id head) (due_string_of (queue_cfg "Chore Queue"))
                           (language_of (queue_cfg "Chore Queue"))]
         ++ map (fun t => POST_task_due (task_id t) "no due date"
                            (language_of (queue_cfg "Chore Queue")))
                (List.filter has_due rest)
         ++ labeling
    /\ forallb (fun r => label_service_request r || label_write r) labeling = true
    /\ cleared_due_on (promoted "Chore Queue" trash 1 true)
       = Some (length (List.filter has_due rest))
    /\ (due_string_of (queue_cfg "Chore Queue") <> "no due date"%string ->
        forall tid lang l1 l2,
          log (snd (promote_queue (queue_cfg "Chore Queue") sample_world))
          = log sample_world ++ l1 ++ POST_task_due tid "no due date" lang :: l2 ->
          exists t, In t rest /\ has_due t = true /\ task_id t = tid).
Proof.
  apply (clears_exactly_rest_with_due (queue_cfg "Chore Queue") sample_world
           (promoted "Chore Queue" trash 1 true)
           (snd (promote_queue (queue_cfg "Chore Queue") sample_world)));
    reflexivity.
Defined.

(** With the clearing directive as the due expression, the promotion itself
    clears the due date of the head, which is no task of [rest]. *)
Lemma promotion_can_clear_the_head :
  default true (clear_due_on_rest clearing_cfg) = true
  /\ tasks_sorted (tasks_in (IInt 7) sample_store) = trash :: [dishes; mop; wipe]
  /\ ~ In (task_id trash) (map task_id [dishes; mop; wipe])
  /\ due trash = Some (mk_due "2024-01-01" "en")
  /\ fst (promote_queue clearing_cfg sample_world)
     = Ok (mk_summary "Chore Queue" status_ok (Some "02 trash"%string) (Some 1%nat)
                      (Some false))
  /\ log (snd (promote_queue clearing_cfg sample_world))
     = [GET_projects; GET_tasks (IInt 7);
        POST_task_due (IInt 2) "no due date" "en";
        POST_task_due (IInt 6) "no due date" "en"]
  /\ map (fun t => (task_id t, due t))
         (st_tasks (remote (snd (promote_queue clearing_cfg sample_world))))
     = [(IInt 1, None); (IInt 2, None); (IInt 3, None); (IInt 6, None)].
Proof.
  split; [reflexivity|]. split; [reflexivity|].
  split; [simpl; intros [H|[H|[H|[]]]]; discriminate|].
  repeat split; vm_compute; reflexivity.
Qed.

Example clearing_requests_of_sample :
  fst (promote_queue (queue_cfg "Chore Queue") sample_world)
  = Ok (promoted "Chore Queue" trash 1 true)
  /\ tasks_sorted (tasks_in (IInt 7) sample_store) = [trash; dishes; mop; wipe]
  /\ log (snd (promote_queue (queue_cfg "Chore Queue") sample_world))
     = [GET_projects; GET_tasks (IInt 7);
        POST_task_due (IInt 2) "today" "en";
        POST_task_due (IInt 6) "no due date" "en";
        GET_labels; POST_labels "@next"; POST_task_labels (IInt 2) [IInt 100]].
Proof. repeat split; reflexivity. Qed.

(** C8. When the run has reached the labeling step and the labeling raises
    (the label lookup, the label creation or the label write refused, or
    any other exception of the step), nothing is raised: [promote_queue]
    returns a summary with status ok and [labeled = false] that still
    reports the title of the promoted task and the count of cleared dates
    computed before. *)
Theorem labeling_failure_is_caught (cfg : config) (w : world) (head : task)
    (cleared : nat) (w4 : world) (pl : string) (e : exn) (w5 : world) :
  reaches_labeling cfg w head cleared w4 ->
  string_truthy (promote_label cfg) = Some pl ->
  label_head head pl w4 = (Raise e, w5) ->
  exists s,
    promote_queue cfg w = (Ok s, w5)
    /\ sum_project s = project_name cfg
    /\ sum_status s = status_ok
    /\ promoted_task s = Some (default "(unnamed)"%string (content head))
    /\ cleared_due_on s = Some cleared
    /\ labeled s = Some false.
Proof.
  intros Hr Hpl He.
  exists (promoted (project_name cfg) head cleared false).
  split; [|repeat split].
  apply (promote_queue_from_labeling _ _ _ _ w4); [exact Hr|].
  now rewrite labeling_step_run, Hpl, He.
Qed.

Lemma sample_reaches_labeling f :
  f 0%nat = Json -> f 1%nat = Json -> f 2%nat = Json -> f 3%nat = Json ->
  reaches_labeling (queue_cfg "Chore Queue") (mk_world sample_store f [] None)
                   trash 1 (sample_before_labeling f).
Proof.
  intros H0 H1 H2 H3.
  exists (IInt 7), [dishes; trash; wipe; mop], [dishes; mop; wipe].
  split; [rewrite get_project_id_by_name_run by exact H0; reflexivity|].
  split; [reflexivity|].
  split; [rewrite list_tasks_run; cbn [listed log faults length app]; now rewrite H1|].
  split; [reflexivity|].
  split.
  - rewrite update_task_due_run. cbn [logged listed log faults length app]. now rewrite H2.
  - unfold clear_due_step.
    change (default true (clear_due_on_rest (queue_cfg "Chore Queue"))) with true.
    cbv iota. cbn [clear_rest has_due dishes mop wipe chore due].
    erewrite bind_run by
      (rewrite update_task_due_run;
       cbn [head_promoted served logged listed log faults length app];
       rewrite H3; reflexivity).
    reflexivity.
Qed.

(** The label lookup refused, the label creation refused, the label write
    refused: the exception of the labeling, the requests issued up to it,
    and the summary of the run. *)
Lemma labeling_failure_is_caught_witness :
  (fst (label_head trash "@next" (sample_before_labeling (refuse_at 4)))
   = Raise (RuntimeError 503 "service unavailable")
   /\ log (snd (label_head trash "@next" (sample_before_labeling (refuse_at 4))))
      = [GET_projects; GET_tasks (IInt 7); POST_task_due (IInt 2) "today" "en";
         POST_task_due (IInt 6) "no due date" "en"; GET_labels]
   /\ exists s,
        promote_queue (queue_cfg "Chore Queue") (mk_world sample_store (refuse_at 4) [] None)
        = (Ok s, logged GET_labels (sample_before_labeling (refuse_at 4)))
        /\ sum_project s = "Chore Queue"%string
        /\ sum_status s = status_ok
        /\ promoted_task s = Some "02 trash"%string
        /\ cleared_due_on s = Some 1%nat
        /\ labeled s = Some false)
  /\ (fst (label_head trash "@next" (sample_before_labeling (refuse_at 5)))
   = Raise (RuntimeError 503 "service unavailable")
   /\ log (snd (label_head trash "@next" (sample_before_labeling (refuse_at 5))))
      = [GET_projects; GET_tasks (IInt 7); POST_task_due (IInt 2) "today" "en";
         POST_task_due (IInt 6) "no due date" "en"; GET_labels; POST_labels "@next"]
   /\ exists s,
        promote_queue (queue_cfg "Chore Queue") (mk_world sample_store (refuse_at 5) [] None)
        = (Ok s, snd (label_head trash "@next" (sample_before_labeling (refuse_at 5))))
        /\ sum_project s = "Chore Queue"%string
        /\ sum_status s = status_ok
        /\ promoted_task s = Some "02 trash"%string
        /\ cleared_due_on s = Some 1%nat
        /\ labeled s = Some false)
  /\ (fst (label_head trash "@next" (sample_before_labeling (refuse_at 6)))
   = Raise (RuntimeError 503 "service unavailable")
   /\ log (snd (label_head trash "@next" (sample_before_labeling (refuse_at 6))))
      = [GET_projects; GET_tasks (IInt 7); POST_task_due (IInt 2) "today" "en";
         POST_task_due (IInt 6) "no due date" "en"; GET_labels; POST_labels "@next";
         POST_task_labels (IInt 2) [IInt 100]]
   /\ exists s,
        promote_queue (queue_cfg "Chore Queue") (mk_world sample_store (refuse_at 6) [] None)
        = (Ok s, snd (label_head trash "@next" (sample_before_labeling (refuse_at 6))))
        /\ sum_project s = "Chore Queue"%string
        /\ sum_status s = status_ok
        /\ promoted_task s = Some "02 trash"%string
        /\ cleared_due_on s = Some 1%nat
        /\ labeled s = Some false).
Proof.
  split; [|split].
  -  split; [reflexivity|]. split; [reflexivity|].
    apply (labeling_failure_is_caught (queue_cfg "Chore Queue")
             (mk_world sample_store (refuse_at 4) [] None) trash 1
             (sample_before_labeling (refuse_at 4)) "@next"
             (RuntimeError 503 "service unavailable")).
    + apply sample_reaches_labeling; reflexivity.
    + reflexivity.
    + reflexivity.
  -  split; [reflexivity|]. split; [reflexivity|].
    apply (labeling_failure_is_caught (queue_cfg "Chore Queue")
             (mk_world sample_store (refuse_at 5) [] None) trash 1
             (sample_before_labeling (refuse_at 5)) "@next"
             (RuntimeError 503 "service unavailable")).
    + apply sample_reaches_labeling; reflexivity.
    + reflexivity.
    + reflexivity.
  -  split; [reflexivity|]. split; [reflexivity|].
    apply (labeling_failure_is_caught (queue_cfg "Chore Queue")
             (mk_world sample_store (refuse_at 6) [] None) trash 1
             (sample_before_labeling (refuse_at 6)) "@next"
             (RuntimeError 503 "service unavailable")).
    + apply sample_reaches_labeling; reflexivity.
    + reflexivity.
    + reflexivity.
Defined.

(** The three requests of the labeling step, each refused in turn, and a
    label name of white space only. *)
Example labeling_failures_of_sample :
  label_head trash "@next" (sample_before_labeling (refuse_at 4))
  = (Raise (RuntimeError 503 "service unavailable"),
     logged GET_labels (sample_before_labeling (refuse_at 4)))
  /\ fst (promote_queue (queue_cfg "Chore Queue") (mk_world sample_store (refuse_at 4) [] None))
     = Ok (promoted "Chore Queue" trash 1 false)
  /\ fst (label_head trash "@next" (sample_before_labeling (refuse_at 5)))
     = Raise (RuntimeError 503 "service unavailable")
  /\ fst (promote_queue (queue_cfg "Chore Queue") (mk_world sample_store (refuse_at 5) [] None))
     = Ok (promoted "Chore Queue" trash 1 false)
  /\ fst (label_head trash "@next" (sample_before_labeling (refuse_at 6)))
     = Raise (RuntimeError 503 "service unavailable")
  /\ fst (promote_queue (queue_cfg "Chore Queue") (mk_world sample_store (refuse_at 6) [] None))
     = Ok (promoted "Chore Queue" trash 1 false)
  /\ fst (label_head trash "  " (sample_before_labeling always_json))
     = Raise (ValueError "label name empty")
  /\ fst (promote_queue
            (mk_config "Chore Queue" None None (Some "  "%string) None) sample_world)
     = Ok (promoted "Chore Queue" trash 1 false).
Proof. repeat split; reflexivity. Qed.




Example carried_label_log :
  log (snd (promote_queue (queue_cfg "Chore Queue") labeled_world))
  = [GET_projects; GET_tasks (IInt 7);
     POST_task_due (IInt 2) "today" "en";
     POST_task_due (IInt 6) "no due date" "en"; GET_labels]
  /\ fst (promote_queue (queue_cfg "Chore Queue") labeled_world)
     = Ok (promoted "Chore Queue" trash_next 1 true).
Proof. split; reflexivity. Qed.

(** ** Related lists *)

Lemma rel_In_r {A B} (R : A -> B -> Prop) l l' y :
  Forall2 R l l' -> In y l' -> exists x, In x l /\ R x y.
Proof.
  induction 1 as [|x y' l l' Hxy _ IH]; intros Hy; [destruct Hy|].
  destruct Hy as [<-|Hy]; [exists x; split; [now left|exact Hxy]|].
  destruct (IH Hy) as (x' & Hx' & Hr). exists x'. split; [now right|exact Hr].
Qed.

Lemma rel_compose {A B C} (R : A -> B -> Prop) (S : B -> C -> Prop) l1 l2 :
  Forall2 R l1 l2 -> forall l3, Forall2 S l2 l3 ->
  Forall2 (fun x z => exists y, R x y /\ S y z) l1 l3.
Proof.
  induction 1 as [|x y l1 l2 Hxy _ IH]; intros l3 H3; inversion H3; subst;
    constructor; [now exists y|now apply IH].
Qed.

Lemma rel_weaken_in {A B} (R Q : A -> B -> Prop) l l' :
  Forall2 R l l' -> (forall x y, In x l -> R x y -> Q x y) -> Forall2 Q l l'.
Proof.
  induction 1 as [|x y l l' Hxy _ IH]; intros H; constructor.
  - apply H; [now left|exact Hxy].
  - apply IH. intros x' y' Hx'. apply H. now right.
Qed.

Lemma rel_map_r {A B} (f : A -> B) l : Forall2 (fun x y => y = f x) l (map f l).
Proof. induction l; constructor; auto. Qed.

Lemma rel_filter {A B} (R : A -> B -> Prop) (f : A -> bool) (g : B -> bool) l l' :
  (forall x y, R x y -> f x = g y) ->
  Forall2 R l l' -> Forall2 R (List.filter f l) (List.filter g l').
Proof.
  intros Hfg. induction 1 as [|x y l l' Hxy _ IH]; [constructor|].
  cbn [List.filter]. rewrite <- (Hfg x y Hxy). destruct (f x); [constructor|]; assumption.
Qed.

Section RelatedSorts.
Context {A B K : Type} (ltb : K -> K -> bool) (key : A -> K) (key' : B -> K).
Context (R : A -> B -> Prop).
Hypothesis R_key : forall x y, R x y -> key x = key' y.

Lemma rel_insert_by x y l l' :
  R x y -> Forall2 R l l' ->
  Forall2 R (insert_by ltb key x l) (insert_by ltb key' y l').
Proof.
  intros Hxy. induction 1 as [|a b l l' Hab Hl IH]; cbn [insert_by].
  - repeat constructor. exact Hxy.
  - rewrite <- (R_key _ _ Hxy), <- (R_key _ _ Hab).
    destruct (ltb (key a) (key x)); repeat (constructor; try assumption).
Qed.

Lemma rel_sorted l l' :
  Forall2 R l l' -> Forall2 R (sorted ltb key l) (sorted ltb key' l').
Proof.
  induction 1 as [|a b l l' Hab _ IH]; [constructor|].
  cbn [sorted foldr]. now apply rel_insert_by.
Qed.
End RelatedSorts.

Lemma same_queue_task_key t t' :
  same_queue_task t t' -> parse_order_key t = parse_order_key t'.
Proof.
  intros (_ & Hc & Hcr & _). unfold parse_order_key, prefix_of. now rewrite Hc, Hcr.
Qed.

Lemma tasks_sorted_related (R : task -> task -> Prop) l l' :
  (forall t t', R t t' -> same_queue_task t t') ->
  Forall2 R l l' -> Forall2 R (tasks_sorted l) (tasks_sorted l').
Proof.
  intros HR. apply rel_sorted. intros x y Hxy. now apply same_queue_task_key, HR.
Qed.

Lemma tasks_in_related (R : task -> task -> Prop) pid s s' :
  (forall t t', R t t' -> same_queue_task t t') ->
  Forall2 R (st_tasks s) (st_tasks s') ->
  Forall2 R (tasks_in pid s) (tasks_in pid s').
Proof.
  intros HR. apply rel_filter. intros x y Hxy.
  destruct (HR _ _ Hxy) as (_ & _ & _ & Hp). now rewrite Hp.
Qed.

(** ** The store after a run *)

Lemma same_queue_task_refl t : same_queue_task t t.
Proof. repeat split. Qed.

Lemma same_queue_task_trans t1 t2 t3 :
  same_queue_task t1 t2 -> same_queue_task t2 t3 -> same_queue_task t1 t3.
Proof. unfold same_queue_task. intuition congruence. Qed.

Lemma set_due_same tid d t : same_queue_task t (set_due tid d t).
Proof. unfold set_due. destruct (bool_decide _); repeat split. Qed.

Lemma set_due_other tid d t : task_id t <> tid -> set_due tid d t = t.
Proof. intros H. unfold set_due. now rewrite bool_decide_eq_false_2. Qed.

Lemma set_due_hit tid d t : task_id t = tid -> due (set_due tid d t) = d.
Proof. intros H. unfold set_due. now rewrite bool_decide_eq_true_2. Qed.

Lemma clear_requests_map cfg rest :
  clear_requests cfg rest = map (clear_request (language_of cfg)) (cleared_tasks cfg rest).
Proof. unfold clear_requests, cleared_tasks. now destruct (default true _). Qed.

Lemma replay_clears lang cs : forall s,
  st_projects (replay (map (clear_request lang) cs) s) = st_projects s
  /\ Forall2 (cleared_rel cs) (st_tasks s)
             (st_tasks (replay (map (clear_request lang) cs) s)).
Proof.
  induction cs as [|c cs IH]; intros s.
  - split; [reflexivity|]. simpl.
    induction (st_tasks s); constructor; [|assumption].
    split; [apply same_queue_task_refl|]. right. split; [reflexivity|]. intros [].
  - cbn [map]. rewrite replay_cons.
    destruct (IH (snd (serve (clear_request lang c) s))) as [Hp Ht].
    split; [rewrite Hp; reflexivity|].
    cbn [clear_request serve snd with_tasks st_tasks] in Ht |- *.
    pose proof (rel_compose _ _ _ _ (rel_map_r (set_due (task_id c) (due_of no_due_date lang))
                                               (st_tasks s)) _ Ht) as H.
    eapply rel_weaken_in; [exact H|].
    intros x z _ (y & -> & Hq & Hd). split.
    + eapply same_queue_task_trans; [apply set_due_same|exact Hq].
    + destruct Hd as [Hd|[Hd Hn]]; [now left|].
      destruct (decide (task_id x = task_id c)) as [E|E].
      * left. rewrite Hd. now apply set_due_hit.
      * right. rewrite set_due_other in Hd, Hn by exact E.
        split; [exact Hd|]. cbn [map]. intros [Hc|Hc]; [congruence|contradiction].
Qed.

Lemma NoDup_map_In_eq {A B} (f : A -> B) (l : list A) x y :
  List.NoDup (map f l) -> In x l -> In y l -> f x = f y -> x = y.
Proof.
  induction l as [|a l IH]; intros Hnd Hx Hy E; [destruct Hx|].
  cbn [map] in Hnd. apply List.NoDup_cons_iff in Hnd as [Ha Hnd].
  destruct Hx as [->|Hx], Hy as [->|Hy]; auto.
  - exfalso. apply Ha. rewrite E. now apply in_map.
  - exfalso. apply Ha. rewrite <- E. now apply in_map.
Qed.

Lemma tasks_in_listed pid s t : In t (tasks_in pid s) -> In t (st_tasks s).
Proof. unfold tasks_in. intros H. now apply List.filter_In in H as [H _]. Qed.

Lemma NoDup_map_filter {A B} (f : A -> B) (p : A -> bool) l :
  List.NoDup (map f l) -> List.NoDup (map f (List.filter p l)).
Proof.
  induction l as [|a l IH]; intros Hnd; [constructor|].
  cbn [map] in Hnd. apply List.NoDup_cons_iff in Hnd as [Ha Hnd].
  cbn [List.filter]. destruct (p a); [|now apply IH].
  cbn [map]. apply List.NoDup_cons_iff. split; [|now apply IH].
  intros Hin. apply Ha. apply in_map_iff in Hin as (x & E & Hx).
  apply List.filter_In in Hx as [Hx _]. rewrite <- E. now apply in_map.
Qed.

(** In a queue with unique identifiers the head is none of [rest]. *)
Lemma head_not_in_rest pid s head rest :
  List.NoDup (map task_id (st_tasks s)) ->
  tasks_sorted (tasks_in pid s) = head :: rest ->
  ~ In (task_id head) (map task_id rest).
Proof.
  intros Hnd Hs.
  assert (H : List.NoDup (map task_id (head :: rest))).
  { rewrite <- Hs.
    eapply Permutation_NoDup;
      [apply Permutation_map, tasks_sorted_perm|now apply NoDup_map_filter]. }
  cbn [map] in H. now apply List.NoDup_cons_iff in H as [H _].
Qed.

Lemma rest_listed pid s head rest t :
  tasks_sorted (tasks_in pid s) = head :: rest -> In t rest -> In t (st_tasks s).
Proof.
  intros Hs Ht. apply (tasks_in_listed pid).
  apply (Permutation_in _ (Permutation_sym (tasks_sorted_perm _))).
  rewrite Hs. now right.
Qed.

(** The store after a run that ended with status ok. *)
Lemma store_after_run cfg w pid head rest cleared labeled w4 w1 :
  List.NoDup (map task_id (st_tasks (remote w))) ->
  tasks_sorted (tasks_in pid (remote w)) = head :: rest ->
  clear_due_step cfg (language_of cfg) rest (head_promoted cfg pid head w)
  = (Ok cleared, w4) ->
  labeling_step cfg head w4 = (Ok labeled, w1) ->
  faults w1 = faults w
  /\ st_projects (remote w1) = st_projects (remote w)
  /\ Forall2 (run_rel cfg rest) (st_tasks (remote w)) (st_tasks (remote w1)).
Proof.
  intros Hnd Hs H4 H5.
  apply clear_due_step_Ok in H4 as [_ ->].
  pose proof (labeling_step_frame cfg head
    (mk_world (replay (clear_requests cfg rest) (remote (head_promoted cfg pid head w)))
              (faults (head_promoted cfg pid head w))
              (log (head_promoted cfg pid head w) ++ clear_requests cfg rest)
              (_label_cache (head_promoted cfg pid head w)))) as (Hf & Hp & Ht & _).
  rewrite H5 in Hf, Hp, Ht. cbn [snd] in Hf, Hp, Ht.
  cbn [faults remote] in Hf, Hp, Ht. rewrite clear_requests_map in Hp, Ht.
  destruct (replay_clears (language_of cfg) (cleared_tasks cfg rest)
              (remote (head_promoted cfg pid head w))) as [Hp' Ht'].
  split; [exact Hf|]. split; [now rewrite Hp, Hp'|].
  cbn [head_promoted served remote serve snd with_tasks st_tasks logged listed] in Ht'.
  pose proof (rel_compose _ _ _ _
    (rel_compose _ _ _ _
       (rel_map_r (set_due (task_id head)
                           (due_of (due_string_of cfg) (language_of cfg)))
                  (st_tasks (remote w))) _ Ht') _ Ht) as H.
  eapply rel_weaken_in; [exact H|].
  intros x z Hx (y4 & (y3 & -> & Hq & Hd) & Hl).
  destruct Hl as (Hid & Hc & Hcr & Hdue & Hpr).
  assert (Hq' : same_queue_task x z).
  { eapply same_queue_task_trans; [apply set_due_same|].
    eapply same_queue_task_trans; [exact Hq|]. repeat split; assumption. }
  split; [exact Hq'|].
  intros Hflag Hin. rewrite Hdue.
  assert (Hne : task_id x <> task_id head).
  { intros E. rewrite E in Hin. now apply (head_not_in_rest pid (remote w) head rest). }
  rewrite set_due_other in Hd by exact Hne.
  destruct Hd as [Hd|[Hd Hn]]; [exact Hd|]. rewrite Hd.
  apply in_map_iff in Hin as (r & Er & Hr).
  assert (r = x).
  { apply (NoDup_map_In_eq task_id (st_tasks (remote w))); auto.
    now apply (rest_listed pid _ head rest). }
  subst r. unfold cleared_tasks in Hn. rewrite Hflag in Hn.
  destruct (due x) eqn:Ex; [|reflexivity].
  exfalso. apply Hn. apply in_map, List.filter_In. split; [exact Hr|].
  unfold has_due. now rewrite Ex.
Qed.

Lemma filter_none {A} (f : A -> bool) l :
  (forall x, In x l -> f x = false) -> List.filter f l = [].
Proof.
  induction l as [|a l IH]; intros H; [reflexivity|].
  cbn [List.filter]. rewrite (H a) by now left. apply IH. intros x Hx. apply H. now right.
Qed.

Lemma filter_has_due_nil (rest rest0 : list task) cfg :
  default true (clear_due_on_rest cfg) = true ->
  Forall2 (run_rel cfg rest0) rest0 rest ->
  List.filter has_due rest = [].
Proof.
  intros Hflag H. apply filter_none.
  intros t' Ht'. destruct (rel_In_r _ _ _ _ H Ht') as (t & Ht & _ & Hd).
  unfold has_due. rewrite (Hd Hflag); [reflexivity|]. now apply in_map.
Qed.

Lemma run_rel_same cfg rest t t' : run_rel cfg rest t t' -> same_queue_task t t'.
Proof. now intros [H _]. Qed.

(** C5, as the code has it.  When no request fails and the task
    identifiers are unique, a second run on the store the first run left
    promotes the same head and reports the same title, and it clears
    nothing: its count is 0, while the count of the first run is the
    number of tasks of [rest] that had a due date. *)
Theorem second_run_same_head_clears_nothing (cfg : config) (w : world)
    (s1 : summary) (w1 : world) :
  reliable w ->
  List.NoDup (map task_id (st_tasks (remote w))) ->
  promote_queue cfg w = (Ok s1, w1) ->
  sum_status s1 = status_ok ->
  exists s2 w2 pid head1 rest1 head2 rest2,
    promote_queue cfg w1 = (Ok s2, w2)
    /\ sum_status s2 = status_ok
    /\ tasks_sorted (tasks_in pid (remote w)) = head1 :: rest1
    /\ tasks_sorted (tasks_in pid (remote w1)) = head2 :: rest2
    /\ task_id head2 = task_id head1
    /\ promoted_task s2 = promoted_task s1
    /\ cleared_due_on s1 = Some (length (cleared_tasks cfg rest1))
    /\ cleared_due_on s2 = Some 0%nat.
Proof.
  intros Hrel Hnd H Hs.
  apply promote_queue_Ok_inv in H as
    (pid & head & rest & cleared & labeled & w4 & H1 & Ht & H2 & Hsort & H3 & H4 & H5 & ->);
    [|exact Hs].
  destruct (store_after_run _ _ _ _ _ _ _ _ _ Hnd Hsort H4 H5) as (Hf & Hp & Hrun).
  assert (Hrel1 : reliable w1) by (intros n; rewrite Hf; apply Hrel).
  (* the resolver of the second run *)
  rewrite get_project_id_by_name_run in H1 by apply Hrel.
  destruct (resolve_name (st_projects (remote w)) (project_name cfg)) as [r|e] eqn:Er;
    [|discriminate].
  injection H1 as ->.
  assert (G1 : get_project_id_by_name (project_name cfg) w1 = (Ok (Some pid), listed w1)).
  { rewrite get_project_id_by_name_run by apply Hrel1. now rewrite Hp, Er. }
  (* its listing of the tasks *)
  assert (G2 : list_tasks pid (listed w1)
               = (Ok (tasks_in pid (remote w1)), logged (GET_tasks pid) (listed w1))).
  { rewrite list_tasks_run. cbn [faults listed]. now rewrite Hrel1. }
  pose proof (tasks_sorted_related _ _ _ (run_rel_same cfg rest)
                (tasks_in_related _ pid _ _ (run_rel_same cfg rest) Hrun)) as Hsorted.
  rewrite Hsort in Hsorted.
  destruct (tasks_sorted (tasks_in pid (remote w1))) as [|head2 rest2] eqn:Hsort2;
    [inversion Hsorted|].
  apply Forall2_cons_1 in Hsorted as [Hhead Hrest].
  (* the promotion and the clearing *)
  assert (G3 : update_task_due (task_id head2) (due_string_of cfg) (language_of cfg)
                 (logged (GET_tasks pid) (listed w1))
               = (Ok tt, head_promoted cfg pid head2 w1)).
  { rewrite update_task_due_run. cbn [faults logged listed]. now rewrite Hrel1. }
  assert (G4 : exists w4', clear_due_step cfg (language_of cfg) rest2
                             (head_promoted cfg pid head2 w1) = (Ok 0%nat, w4')).
  { unfold clear_due_step. destruct (default true (clear_due_on_rest cfg)) eqn:Hflag.
    - rewrite clear_rest_reliable by (intros n; apply Hrel1).
      rewrite (filter_has_due_nil rest2 rest cfg Hflag Hrest). now eexists.
    - now eexists. }
  destruct G4 as [w4' G4].
  destruct (labeling_step_total cfg head2 w4') as [labeled2 G5].
  exists (promoted (project_name cfg) head2 0 labeled2),
         (snd (labeling_step cfg head2 w4')), pid, head, rest, head2, rest2.
  split; [eapply promote_queue_compose; eassumption|].
  split; [reflexivity|]. split; [exact Hsort|]. split; [exact Hsort2|].
  destruct Hhead as ((Hid & Hc & _) & _).
  split; [exact Hid|]. split; [cbn [promoted_task promoted]; now rewrite Hc|].
  split; [|reflexivity].
  apply clear_due_step_Ok in H4 as [-> _].
  cbn [cleared_due_on promoted]. now rewrite clear_requests_map, length_map.
Qed.

Lemma NoDup_sample_tasks : List.NoDup (map task_id (st_tasks (remote sample_world))).
Proof. apply NoDup_ListNoDup, (bool_decide_unpack _). vm_compute. reflexivity. Qed.

Lemma second_run_same_head_clears_nothing_witness :
  exists s2 w2 pid head1 rest1 head2 rest2,
    promote_queue (queue_cfg "Chore Queue")
                  (snd (promote_queue (queue_cfg "Chore Queue") sample_world))
    = (Ok s2, w2)
    /\ sum_status s2 = status_ok
    /\ tasks_sorted (tasks_in pid (remote sample_world)) = head1 :: rest1
    /\ tasks_sorted
         (tasks_in pid (remote (snd (promote_queue (queue_cfg "Chore Queue") sample_world))))
       = head2 :: rest2
    /\ task_id head2 = task_id head1
    /\ promoted_task s2 = promoted_task (promoted "Chore Queue" trash 1 true)
    /\ cleared_due_on (promoted "Chore Queue" trash 1 true)
       = Some (length (cleared_tasks (queue_cfg "Chore Queue") rest1))
    /\ cleared_due_on s2 = Some 0%nat.
Proof.
  apply (second_run_same_head_clears_nothing (queue_cfg "Chore Queue") sample_world
           (promoted "Chore Queue" trash 1 true)
           (snd (promote_queue (queue_cfg "Chore Queue") sample_world))).
  - intros n. reflexivity.
  - exact NoDup_sample_tasks.
  - reflexivity.
  - reflexivity.
Defined.

(** The first run clears the due date of "15 mop" and reports 1; the second
    run, on the store the first one left, promotes the same head and
    reports 0. *)
Lemma second_run_reports_another_count :
  fst (promote_queue (queue_cfg "Chore Queue") sample_world)
  = Ok (mk_summary "Chore Queue" status_ok (Some "02 trash"%string) (Some 1%nat) (Some true))
  /\ fst (promote_queue (queue_cfg "Chore Queue")
            (snd (promote_queue (queue_cfg "Chore Queue") sample_world)))
     = Ok (mk_summary "Chore Queue" status_ok (Some "02 trash"%string) (Some 0%nat) (Some true))
  /\ st_projects (remote (snd (promote_queue (queue_cfg "Chore Queue") sample_world)))
     = st_projects sample_store
  /\ map task_id (st_tasks (remote (snd (promote_queue (queue_cfg "Chore Queue") sample_world))))
     = map task_id (st_tasks sample_store)
  /\ (forall s1 s2,
        fst (promote_queue (queue_cfg "Chore Queue") sample_world) = Ok s1 ->
        fst (promote_queue (queue_cfg "Chore Queue")
               (snd (promote_queue (queue_cfg "Chore Queue") sample_world))) = Ok s2 ->
        promoted_task s2 = promoted_task s1
        /\ cleared_due_on s2 <> cleared_due_on s1).
Proof.
  split; [vm_compute; reflexivity|]. split; [vm_compute; reflexivity|].
  split; [vm_compute; reflexivity|]. split; [vm_compute; reflexivity|].
  intros s1 s2 H1 H2. vm_compute in H1, H2.
  injection H1 as <-. injection H2 as <-. split; [reflexivity|discriminate].
Qed.

(** * Further properties of the code *)

(** ** The resolver on any listing *)

(** Every child identifier recorded in [children_map] is a key of
    [project_map], and every value of [project_map] is a listed project
    stored under its own identifier. *)
Lemma build_maps_children_known projects n c :
  In c (default [] (snd (build_maps projects) !! n)) ->
  is_Some (fst (build_maps projects) !! c).
Proof.
  induction projects as [|p projects IH] using rev_ind in n, c |- *; [intros []|].
  rewrite build_maps_snoc. cbn [fst snd]. rewrite add_child_lookup.
  intros H. apply in_app_or in H as [H|H].
  - destruct (decide (proj_id p = c)) as [->|Hne].
    + rewrite lookup_insert_eq. eauto.
    + rewrite lookup_insert_ne by exact Hne. now apply (IH n).
  - destruct (_ && _); [|destruct H]. destruct H as [<-|[]].
    rewrite lookup_insert_eq. eauto.
Qed.

Lemma build_maps_values_listed projects c q :
  fst (build_maps projects) !! c = Some q -> In q projects /\ proj_id q = c.
Proof.
  induction projects as [|p projects IH] using rev_ind in c, q |- *.
  - unfold build_maps. simpl. rewrite lookup_empty. discriminate.
  - rewrite build_maps_snoc. cbn [fst].
    destruct (decide (proj_id p = c)) as [<-|Hne].
    + rewrite lookup_insert_eq. intros [= <-]. split; [|reflexivity].
      apply in_or_app. right. now left.
    + rewrite lookup_insert_ne by exact Hne. intros H.
      destruct (IH _ _ H) as [Hin E]. split; [|exact E]. apply in_or_app. now left.
Qed.

Lemma find_child_known projects part ids :
  (forall c, In c ids -> is_Some (fst (build_maps projects) !! c)) ->
  exists r, find_child (fst (build_maps projects)) part ids = Ok r
    /\ forall c, r = Some c -> In c ids.
Proof.
  induction ids as [|c ids IH]; intros Hk; [exists None; split; [reflexivity|discriminate]|].
  cbn [find_child]. destruct (Hk c) as [q Eq]; [now left|]. rewrite Eq.
  destruct (name_is q part).
  - exists (Some c). split; [reflexivity|]. intros c' [= <-]. now left.
  - destruct IH as (r & -> & Hr); [intros c' Hc'; apply Hk; now right|].
    exists r. split; [reflexivity|]. intros c' Hc'. right. now apply Hr.
Qed.

Lemma walk_known projects parts : forall current,
  is_Some (fst (build_maps projects) !! current) ->
  exists r, walk (fst (build_maps projects)) (snd (build_maps projects)) current parts = Ok r
    /\ forall c, r = Some c -> is_Some (fst (build_maps projects) !! c).
Proof.
  induction parts as [|part parts IH]; intros current Hc.
  - exists (Some current). split; [reflexivity|]. now intros c [= <-].
  - cbn [walk].
    destruct (find_child_known projects part
                (default [] (snd (build_maps projects) !! current))) as (r & -> & Hr).
    { intros c. apply build_maps_children_known. }
    destruct r as [next_id|].
    + apply IH. eapply build_maps_children_known. now apply Hr.
    + exists None. split; [reflexivity|discriminate].
Qed.

Lemma try_roots_known projects parts roots :
  (forall c, In c roots -> is_Some (fst (build_maps projects) !! c)) ->
  exists r, try_roots (fst (build_maps projects)) (snd (build_maps projects)) parts roots = Ok r
    /\ forall c, r = Some c -> is_Some (fst (build_maps projects) !! c).
Proof.
  induction roots as [|root roots IH]; intros Hk.
  - exists None. split; [reflexivity|discriminate].
  - cbn [try_roots].
    destruct (walk_known projects parts root) as (r & -> & Hr); [apply Hk; now left|].
    destruct r as [c|].
    + exists (Some c). split; [reflexivity|exact Hr].
    + apply IH. intros c Hc. apply Hk. now right.
Qed.

Lemma project_map_key_of_listed projects p :
  In p projects -> is_Some (fst (build_maps projects) !! proj_id p).
Proof.
  induction projects as [|q projects IH] using rev_ind; [intros []|].
  rewrite build_maps_snoc. cbn [fst]. intros H.
  destruct (decide (proj_id q = proj_id p)) as [E|Hne].
  - rewrite E, lookup_insert_eq. eauto.
  - rewrite lookup_insert_ne by exact Hne. apply IH.
    apply in_app_or in H as [H|[->|[]]]; [exact H|congruence].
Qed.

Lemma hierarchical_known projects path :
  exists r, _resolve_hierarchical_project projects path = Ok r
    /\ forall c, r = Some c -> In c (map proj_id projects).
Proof.
  unfold _resolve_hierarchical_project.
  destruct (map strip (split slash path)) as [|first parts] eqn:E.
  { exfalso. destruct (split slash path) eqn:E'; [|discriminate].
    now apply split_not_nil in E'. }
  destruct (try_roots_known projects parts (root_candidates projects first))
    as (r & -> & Hr).
  { intros c Hc. unfold root_candidates in Hc.
    apply in_map_iff in Hc as (p & <- & Hp). apply List.filter_In in Hp as [Hp _].
    now apply project_map_key_of_listed. }
  exists r. split; [reflexivity|]. intros c Hc.
  destruct (Hr c Hc) as [q Eq]. apply build_maps_values_listed in Eq as [Hin <-].
  now apply in_map.
Qed.

(** X1. On every listing and every name the resolver returns without
    raising: [project_map[child_id]] never misses its key and
    [path_parts[0]] always exists, whether or not the listing is a forest. *)
Theorem resolver_never_raises (projects : list project) (nm : string) :
  exists r, resolve_name projects nm = Ok r.
Proof.
  unfold resolve_name. destruct (exact_match projects nm); [eauto|].
  destruct (contains_char slash nm); [|eauto].
  destruct (hierarchical_known projects nm) as (r & E & _). eauto.
Qed.

(** X2. An identifier the resolver returns is the identifier of a project
    of the listing. *)
Theorem resolver_returns_listed_project (projects : list project) (nm : string)
    (i : ident) :
  resolve_name projects nm = Ok (Some i) ->
  exists p, In p projects /\ proj_id p = i.
Proof.
  unfold resolve_name. destruct (exact_match projects nm) as [p|] eqn:E.
  - intros [= <-]. exists p. split; [|reflexivity].
    unfold exact_match in E. now apply List.find_some in E as [E _].
  - destruct (contains_char slash nm); [|discriminate].
    destruct (hierarchical_known projects nm) as (r & -> & Hr).
    intros [= ->]. specialize (Hr i eq_refl).
    apply in_map_iff in Hr as (p & Ep & Hp). now exists p.
Qed.

Lemma resolver_returns_listed_project_witness :
  exists p, In p nested_listing /\ proj_id p = IInt 4.
Proof.
  apply (resolver_returns_listed_project nested_listing
           "Chores / rotating chore queue" (IInt 4)).
  reflexivity.
Defined.

(** ** Letter case in queue names *)

Lemma lower_char_space c : is_space (lower_char c) = is_space c.
Proof. destruct c as [[] [] [] [] [] [] [] []]; reflexivity. Qed.

Lemma lower_char_slash c : Ascii.eqb (lower_char c) slash = Ascii.eqb c slash.
Proof. destruct c as [[] [] [] [] [] [] [] []]; reflexivity. Qed.

Lemma lower_lstrip s : lower (lstrip s) = lstrip (lower s).
Proof.
  induction s as [|c s IH]; [reflexivity|]. cbn [lstrip lower].
  rewrite lower_char_space. now destruct (is_space c).
Qed.

Lemma lower_rstrip s : lower (rstrip s) = rstrip (lower s).
Proof.
  induction s as [|c s IH]; [reflexivity|]. cbn [rstrip lower].
  rewrite <- IH, lower_char_space.
  destruct (rstrip s); [now destruct (is_space c)|reflexivity].
Qed.

Lemma lower_strip s : lower (strip s) = strip (lower s).
Proof. unfold strip. now rewrite lower_rstrip, lower_lstrip. Qed.

Lemma contains_slash_lower s : contains_char slash (lower s) = contains_char slash s.
Proof.
  induction s as [|c s IH]; [reflexivity|]. cbn [contains_char lower].
  now rewrite lower_char_slash, IH.
Qed.

Lemma split_slash_lower s : split slash (lower s) = map lower (split slash s).
Proof.
  induction s as [|c s IH]; [reflexivity|]. cbn [split lower].
  rewrite lower_char_slash, IH.
  destruct (Ascii.eqb c slash); [reflexivity|]. now destruct (split slash s).
Qed.

Lemma name_is_lower p a b : lower a = lower b -> name_is p a = name_is p b.
Proof. unfold name_is. now intros ->. Qed.

Lemma find_ext_bool {A} (f g : A -> bool) l :
  (forall x, f x = g x) -> List.find f l = List.find g l.
Proof.
  intros H. induction l as [|a l IH]; [reflexivity|]. cbn [List.find].
  now rewrite H, IH.
Qed.

Lemma find_child_lower pm a b ids :
  lower a = lower b -> find_child pm a ids = find_child pm b ids.
Proof.
  intros E. induction ids as [|c ids IH]; [reflexivity|]. cbn [find_child].
  destruct (pm !! c); [|reflexivity]. now rewrite (name_is_lower _ a b E), IH.
Qed.

Lemma walk_lower pm cm parts : forall parts' current,
  map lower parts = map lower parts' ->
  walk pm cm current parts = walk pm cm current parts'.
Proof.
  induction parts as [|a parts IH]; intros [|b parts'] current E; try discriminate;
    [reflexivity|].
  injection E as Ea E. cbn [walk]. rewrite (find_child_lower pm a b _ Ea).
  destruct (find_child pm b _) as [[next_id|]|]; try reflexivity. now apply IH.
Qed.

Lemma try_roots_lower pm cm parts parts' roots :
  map lower parts = map lower parts' ->
  try_roots pm cm parts roots = try_roots pm cm parts' roots.
Proof.
  intros E. induction roots as [|r roots IH]; [reflexivity|]. cbn [try_roots].
  now rewrite (walk_lower pm cm parts parts' r E), IH.
Qed.

Lemma path_parts_lower nm :
  map lower (map strip (split slash nm)) = map strip (split slash (lower nm)).
Proof.
  rewrite split_slash_lower, !map_map. apply map_ext. intros s. apply lower_strip.
Qed.

(** X3. Queue names are matched without regard to letter case, as full
    names and as hierarchical paths alike: two names that are equal after
    [lower()] resolve to the same result on every listing. *)
Theorem resolver_ignores_case (projects : list project) (nm nm' : string) :
  lower nm = lower nm' ->
  resolve_name projects nm = resolve_name projects nm'.
Proof.
  intros E. unfold resolve_name, exact_match.
  assert (Es : lower (strip nm) = lower (strip nm')) by (rewrite !lower_strip; now rewrite E).
  rewrite (find_ext_bool (fun p => name_is p (strip nm)) (fun p => name_is p (strip nm')))
    by (intros p; now apply name_is_lower).
  destruct (List.find _ projects); [reflexivity|].
  rewrite <- (contains_slash_lower nm), <- (contains_slash_lower nm'), E.
  destruct (contains_char slash (lower nm')); [|reflexivity].
  unfold _resolve_hierarchical_project.
  pose proof (path_parts_lower nm) as P. pose proof (path_parts_lower nm') as P'.
  rewrite E, <- P' in P.
  destruct (map strip (split slash nm)) as [|a parts],
           (map strip (split slash nm')) as [|b parts']; try discriminate; [reflexivity|].
  injection P as Ea Ep.
  rewrite (try_roots_lower _ _ parts parts' _ Ep).
  unfold root_candidates. f_equal. f_equal.
  apply List.filter_ext. intros p. now rewrite (name_is_lower p a b Ea).
Qed.

Lemma resolver_ignores_case_witness :
  resolve_name nested_listing "CHORES/Rotating Chore Queue"
  = resolve_name nested_listing "chores/rotating chore queue".
Proof.
  apply (resolver_ignores_case nested_listing
           "CHORES/Rotating Chore Queue" "chores/rotating chore queue").
  reflexivity.
Defined.

(** ** Ties, short prefixes and long prefixes *)

Lemma str_ltb_irrefl s : String.ltb s s = false.
Proof. unfold String.ltb. now rewrite str_compare_refl. Qed.

Lemma same_key_eqb k t :
  same_key key_ltb parse_order_key k t = key_eqb (parse_order_key t) k.
Proof.
  unfold same_key, key_eqb, key_ltb. set (a := parse_order_key t).
  rewrite (Z.eqb_sym (fst k) (fst a)).
  destruct (Z.eqb_spec (fst a) (fst k)) as [E|E].
  - cbn [andb]. destruct (String.eqb_spec (snd a) (snd k)) as [Es|Es].
    + rewrite Es, str_ltb_irrefl. reflexivity.
    + unfold String.ltb. rewrite (String.compare_antisym (snd a) (snd k)).
      destruct (snd k ?= snd a)%string eqn:C; try reflexivity.
      apply String.compare_eq_iff in C. congruence.
  - cbn [andb]. destruct (Z.ltb_spec (fst k) (fst a)), (Z.ltb_spec (fst a) (fst k));
      try reflexivity. lia.
Qed.

Lemma find_hd_filter {A} (f : A -> bool) l :
  List.find f l = hd_error (List.filter f l).
Proof.
  induction l as [|a l IH]; [reflexivity|]. cbn [List.find List.filter].
  now destruct (f a).
Qed.

Lemma key_eqb_eq a b : key_eqb a b = true <-> a = b.
Proof.
  unfold key_eqb. rewrite andb_true_iff, Z.eqb_eq, String.eqb_eq.
  destruct a, b; simpl; split; [intros [-> ->]; reflexivity|now intros [= -> ->]].
Qed.

(** X4. Tasks with the same key (the same prefix value and the same
    created_at) come out in the order of the listing; so the head is, of
    the tasks that share its key, the one listed first. *)
Theorem ties_keep_listing_order (tasks : list task) :
  (forall k,
     List.filter (fun t => key_eqb (parse_order_key t) k) (tasks_sorted tasks)
     = List.filter (fun t => key_eqb (parse_order_key t) k) tasks)
  /\ (forall head rest, tasks_sorted tasks = head :: rest ->
        exists l1 l2, tasks = l1 ++ head :: l2
          /\ forall t, In t l1 -> parse_order_key t <> parse_order_key head).
Proof.
  assert (Hst : forall k,
     List.filter (fun t => key_eqb (parse_order_key t) k) (tasks_sorted tasks)
     = List.filter (fun t => key_eqb (parse_order_key t) k) tasks).
  { intros k.
    rewrite <- (List.filter_ext _ _ (same_key_eqb k) tasks),
            <- (List.filter_ext _ _ (same_key_eqb k) (tasks_sorted tasks)).
    apply sorted_stable. exact key_leb_trans. }
  split; [exact Hst|].
  intros head rest E. specialize (Hst (parse_order_key head)). rewrite E in Hst.
  cbn [List.filter] in Hst.
  rewrite (proj2 (key_eqb_eq _ _) eq_refl) in Hst.
  assert (F : List.find (fun t => key_eqb (parse_order_key t) (parse_order_key head)) tasks
              = Some head) by (rewrite find_hd_filter, <- Hst; reflexivity).
  apply find_first in F as (l1 & l2 & -> & _ & Hl1).
  exists l1, l2. split; [reflexivity|]. intros t Ht Ek.
  apply Hl1 in Ht. apply key_eqb_eq in Ek. congruence.
Qed.

Lemma digit_value_range c : is_digit c = true -> 0 <= digit_value c <= 9.
Proof.
  destruct c as [[] [] [] [] [] [] [] []]; intros H; try discriminate H;
    vm_compute; split; discriminate.
Qed.

Lemma int_acc_bound ds : forall acc,
  all_chars is_digit ds = true -> 0 <= acc ->
  0 <= int_acc ds acc < (acc + 1) * 10 ^ Z.of_nat (String.length ds).
Proof.
  induction ds as [|c ds IH]; intros acc Hd Hacc.
  - simpl. lia.
  - cbn [all_chars] in Hd. apply andb_true_iff in Hd as [Hc Hd].
    pose proof (digit_value_range c Hc) as Hv.
    cbn [int_acc String.length]. specialize (IH (10 * acc + digit_value c) Hd).
    rewrite Nat2Z.inj_succ, Z.pow_succ_r by lia.
    assert (0 < 10 ^ Z.of_nat (String.length ds)) by (apply Z.pow_pos_nonneg; lia).
    nia.
Qed.

(** X5. A numeric prefix of at most nine digits is below the sentinel: the
    task that carries it comes strictly in front of every task without a
    numeric prefix, whatever the creation timestamps. *)
Theorem prefix_up_to_nine_digits_sorts_first (tasks : list task) (a b : task)
    (ds : string) :
  In a tasks -> In b tasks ->
  numeric_prefix (content_of a) ds ->
  (String.length ds <= 9)%nat ->
  (forall ds', ~ numeric_prefix (content_of b) ds') ->
  0 <= int ds < sentinel
  /\ before_in (tasks_sorted tasks) a b /\ ~ before_in (tasks_sorted tasks) b a.
Proof.
  intros Ha Hb Hpa Hlen Hpb.
  assert (Hint : 0 <= int ds < sentinel).
  { destruct Hpa as (ws & rest & _ & _ & Hd & _ & _).
    pose proof (int_acc_bound ds 0 Hd ltac:(lia)) as Hbd. unfold int, sentinel.
    assert (10 ^ Z.of_nat (String.length ds) <= 10 ^ 9)
      by (apply Z.pow_le_mono_r; lia).
    lia. }
  split; [exact Hint|]. apply tasks_sorted_before; auto.
  left. rewrite (key_with_prefix _ _ Hpa), (key_without_prefix _ Hpb). apply Hint.
Qed.

Lemma prefix_up_to_nine_digits_sorts_first_witness :
  0 <= int "10" < sentinel
  /\ before_in (tasks_sorted [wipe; dishes]) dishes wipe
  /\ ~ before_in (tasks_sorted [wipe; dishes]) wipe dishes.
Proof.
  apply (prefix_up_to_nine_digits_sorts_first [wipe; dishes] dishes wipe "10").
  - simpl. auto.
  - simpl. auto.
  - now apply re_match_Some.
  - simpl. lia.
  - now apply re_match_None.
Defined.

(** X6. Digits that are not a numeric prefix: a single digit, and a run of
    digits that runs straight into a letter or an underscore, leave the task
    with the sentinel, like a task without any digits. *)
Theorem digits_without_boundary_are_no_prefix (t : task) (ws ds rest : string) :
  content t = Some (ws +:+ ds +:+ rest) ->
  all_chars is_space ws = true ->
  all_chars is_digit ds = true ->
  ds <> EmptyString ->
  match first_char rest with Some c => is_digit c = false | None => True end ->
  (String.length ds < 2)%nat \/ word_at (first_char rest) = true ->
  parse_order_key t = (sentinel, created_of t).
Proof.
  intros Ec Hws Hds Hne Hrest Hbad.
  unfold parse_order_key, prefix_of. rewrite Ec.
  change (default EmptyString (Some (ws +:+ ds +:+ rest))) with (ws +:+ ds +:+ rest).
  rewrite re_match_span. cbv zeta.
  rewrite (span_exact is_space ws (ds +:+ rest)); [|exact Hws|].
  - cbn [snd]. rewrite (span_exact is_digit ds rest) by assumption. cbn [fst snd].
    unfold group_end. destruct Hbad as [Hlen|Hw].
    + apply Nat.leb_gt in Hlen. rewrite Hlen. reflexivity.
    + destruct (last_char_all is_digit ds Hds Hne) as (c & -> & Hc).
      unfold word_boundary. cbn [word_at] in *. rewrite (digit_is_word _ Hc), Hw.
      now rewrite andb_false_r.
  - destruct ds as [|d ds]; [congruence|]. rewrite str_app_cons. cbn [first_char].
    cbn [all_chars] in Hds. apply andb_true_iff in Hds as [Hd _].
    destruct (is_space d) eqn:E; [|reflexivity].
    rewrite (space_not_digit _ E) in Hd. discriminate.
Qed.

Lemma digits_without_boundary_are_no_prefix_witness :
  parse_order_key (chore 9 " 12abc" "2024-01-01T08:00:00Z" None)
  = (sentinel, created_of (chore 9 " 12abc" "2024-01-01T08:00:00Z" None)).
Proof.
  apply (digits_without_boundary_are_no_prefix
           (chore 9 " 12abc" "2024-01-01T08:00:00Z" None) " " "12" "abc").
  - reflexivity.
  - reflexivity.
  - reflexivity.
  - discriminate.
  - reflexivity.
  - right. reflexivity.
Defined.

(** ** The label cache and [ensure_label] *)

Lemma lstrip_all_space s : all_chars is_space s = true -> lstrip s = EmptyString.
Proof.
  induction s as [|c s IH]; [reflexivity|]. cbn [all_chars lstrip].
  intros H. apply andb_true_iff in H as [-> H]. now apply IH.
Qed.

(** X7. A label name that is empty or white space only makes
    [ensure_label] raise [ValueError] before any request; in
    [promote_queue] the labeling step then reports [labeled = false] and
    leaves the world as it found it. *)
Theorem blank_label_name_is_rejected (nm : string) (w : world) :
  all_chars is_space nm = true ->
  ensure_label nm w = (Raise (ValueError "label name empty"), w)
  /\ forall cfg head,
       string_truthy (promote_label cfg) = Some nm ->
       labeling_step cfg head w = (Ok false, w).
Proof.
  intros H.
  assert (E : ensure_label nm w = (Raise (ValueError "label name empty"), w)).
  { unfold ensure_label. now rewrite (lstrip_all_space _ H). }
  split; [exact E|]. intros cfg head Hpl.
  rewrite labeling_step_run, Hpl. unfold label_head.
  now rewrite (bind_raise _ _ _ _ _ E).
Qed.

Lemma blank_label_name_is_rejected_witness :
  ensure_label "   " sample_world = (Raise (ValueError "label name empty"), sample_world)
  /\ forall cfg head,
       string_truthy (promote_label cfg) = Some "   "%string ->
       labeling_step cfg head sample_world = (Ok false, sample_world).
Proof.
  apply (blank_label_name_is_rejected "   " sample_world). reflexivity.
Defined.

(** X8. Once [_labels] has returned a list, the next call returns the same
    list from the cache and issues no request. *)
Theorem labels_are_cached (w : world) (ls : list label) (w1 : world) :
  _labels w = (Ok ls, w1) ->
  _label_cache w1 = Some ls /\ _labels w1 = (Ok ls, w1).
Proof.
  intros H.
  assert (Hc : _label_cache w1 = Some ls).
  { unfold _labels, bind, get_label_cache in H.
    destruct (_label_cache w) as [c|] eqn:Ec; [injection H as <- <-; exact Ec|].
    rewrite req_run in H.
    destruct (faults w (length (log w))); simpl in H; [discriminate| |];
      injection H as <- <-; reflexivity. }
  split; [exact Hc|]. unfold _labels, bind, get_label_cache. now rewrite Hc.
Qed.

Lemma labels_are_cached_witness :
  _label_cache (snd (_labels labeled_world)) = Some [mk_label (IInt 100) "@Next"]
  /\ _labels (snd (_labels labeled_world))
     = (Ok [mk_label (IInt 100) "@Next"], snd (_labels labeled_world)).
Proof.
  apply (labels_are_cached labeled_world). reflexivity.
Defined.

Lemma find_app_none {A} (f : A -> bool) l x :
  List.find f l = None -> f x = true -> List.find f (l ++ [x]) = Some x.
Proof.
  induction l as [|a l IH]; cbn [List.find app]; intros H Hx; [now rewrite Hx|].
  destruct (f a); [discriminate|]. now apply IH.
Qed.

(** X9. Create on first use, find afterwards.  With a coherent cache and
    no failing request, when [ensure_label] has returned an identifier, a
    second call with a name that differs at most in letter case and leading
    white space returns the same identifier, creates nothing and leaves the
    store as it is; the cache stays coherent. *)
Theorem ensure_label_finds_what_it_created (nm nm' : string) (w : world)
    (lid : ident) (w1 : world) :
  reliable w ->
  cache_coherent w ->
  lower (lstrip nm') = lower (lstrip nm) ->
  ensure_label nm w = (Ok lid, w1) ->
  cache_coherent w1
  /\ exists w2,
       ensure_label nm' w1 = (Ok lid, w2)
       /\ remote w2 = remote w1
       /\ issues is_label_listing w1 w2.
Proof.
  intros Hrel Hcoh Hnm H.
  unfold ensure_label in H |- *.
  assert (Hne : String.eqb (lstrip nm') EmptyString = String.eqb (lstrip nm) EmptyString).
  { destruct (lstrip nm') as [|c s], (lstrip nm) as [|d t]; try reflexivity; discriminate. }
  rewrite Hne, Hnm. destruct (String.eqb (lstrip nm) EmptyString); [discriminate|].
  set (f := fun lab => String.eqb (lower (lab_name lab)) (lower (lstrip nm))) in *.
  (* the labels the first call looked at are the labels of the store *)
  assert (Hl : _labels w = (Ok (st_labels (remote w)),
                            mk_world (remote w) (faults w)
                                     (log w ++ match _label_cache w with
                                               | None => [GET_labels] | Some _ => [] end)
                                     (Some (st_labels (remote w))))).
  { unfold _labels, bind, get_label_cache. destruct Hcoh as [Ec|Ec]; rewrite Ec.
    - rewrite req_run, Hrel. reflexivity.
    - rewrite app_nil_r. destruct w; simpl in *. now rewrite Ec. }
  rewrite (bind_run _ _ _ _ _ Hl) in H.
  destruct (List.find f (st_labels (remote w))) as [lab|] eqn:Ef.
  - (* found: the cache answers the second call *)
    injection H as <- <-. split; [now right|].
    eexists. split.
    { unfold _labels, get_label_cache, ret, bind. cbn [_label_cache].
      cbv beta iota. rewrite Ef. reflexivity. }
    split; [reflexivity|apply issues_refl].
  - (* created: the second call lists the labels again and finds it *)
    unfold bind in H. rewrite req_run in H. cbn [faults log] in H.
    rewrite Hrel in H. cbn [serve fst snd set_label_cache served] in H.
    injection H as <- <-. split; [now left|].
    eexists. split.
    { unfold _labels, get_label_cache, ret, bind. cbn [_label_cache].
      cbv beta iota. rewrite req_run. cbn [faults log remote]. rewrite Hrel.
      cbn [serve fst snd set_label_cache served st_labels remote]. cbv beta iota.
      rewrite (find_app_none f _ (mk_label (IInt (st_next_label (remote w))) (lstrip nm)) Ef)
        by (unfold f; cbn [lab_name]; apply String.eqb_refl).
      reflexivity. }
    split; [reflexivity|]. exists [GET_labels]. split; reflexivity.
Qed.

Lemma ensure_label_finds_what_it_created_witness :
  cache_coherent (snd (ensure_label "@next" sample_world))
  /\ exists w2,
       ensure_label " @NEXT" (snd (ensure_label "@next" sample_world)) = (Ok (IInt 100), w2)
       /\ remote w2 = remote (snd (ensure_label "@next" sample_world))
       /\ issues is_label_listing (snd (ensure_label "@next" sample_world)) w2.
Proof.
  apply (ensure_label_finds_what_it_created "@next" " @NEXT" sample_world (IInt 100)).
  - intros n. reflexivity.
  - left. reflexivity.
  - reflexivity.
  - reflexivity.
Defined.

(** ** What a run writes *)

Lemma clear_ids_step c ids t :
  clear_ids ids (set_due c None t) = clear_ids (c :: ids) t.
Proof.
  unfold clear_ids, set_due.
  destruct (decide (task_id t = c)) as [E|E].
  - rewrite (bool_decide_eq_true_2 (task_id t = c) E). cbn [task_id].
    rewrite (bool_decide_eq_true_2 (task_id t ∈ c :: ids)) by (rewrite E; left).
    rewrite (bool_decide_eq_true_2 (task_id t = task_id t)) by reflexivity.
    destruct (bool_decide (task_id t ∈ ids)); reflexivity.
  - rewrite (bool_decide_eq_false_2 (task_id t = c) E).
    destruct (decide (task_id t ∈ ids)) as [H|H].
    + rewrite (bool_decide_eq_true_2 _ H).
      rewrite (bool_decide_eq_true_2 (task_id t ∈ c :: ids)) by (now right).
      reflexivity.
    + rewrite (bool_decide_eq_false_2 _ H).
      rewrite (bool_decide_eq_false_2 (task_id t ∈ c :: ids)); [reflexivity|].
      intros H'. apply elem_of_cons in H' as [H'|H']; contradiction.
Qed.

Lemma replay_clears_exact lang cs : forall s,
  st_projects (replay (map (clear_request lang) cs) s) = st_projects s
  /\ st_labels (replay (map (clear_request lang) cs) s) = st_labels s
  /\ st_tasks (replay (map (clear_request lang) cs) s)
     = map (clear_ids (map task_id cs)) (st_tasks s).
Proof.
  induction cs as [|c cs IH]; intros s.
  - repeat split. simpl. induction (st_tasks s) as [|t l IHl]; [reflexivity|].
    cbn [map]. rewrite <- IHl. unfold clear_ids.
    now rewrite bool_decide_eq_false_2 by apply not_elem_of_nil.
  - cbn [map]. rewrite replay_cons.
    destruct (IH (snd (serve (clear_request lang c) s))) as (Hp & Hl & Ht).
    rewrite Hp, Hl, Ht. repeat split.
    cbn [clear_request serve snd with_tasks st_tasks].
    rewrite map_map. apply map_ext. intros t. apply clear_ids_step.
Qed.

Lemma keeps_tasks_refl w : keeps_tasks w w.
Proof. split; reflexivity. Qed.

Lemma keeps_tasks_trans w1 w2 w3 :
  keeps_tasks w1 w2 -> keeps_tasks w2 w3 -> keeps_tasks w1 w3.
Proof. unfold keeps_tasks. intuition congruence. Qed.

Lemma keeps_tasks_bind {A B} (m : M A) (k : A -> M B) w :
  keeps_tasks w (snd (m w)) ->
  (forall a w1, keeps_tasks w1 (snd (k a w1))) ->
  keeps_tasks w (snd (bind m k w)).
Proof.
  intros Hm Hk. unfold bind. destruct (m w) as [[a|e] w1]; simpl in *; [|exact Hm].
  eapply keeps_tasks_trans; [exact Hm|apply Hk].
Qed.

Lemma keeps_tasks_req r w :
  label_service_request r = true -> keeps_tasks w (snd (_req r w)).
Proof.
  intros Hr. rewrite req_run.
  destruct (faults w (length (log w))); destruct r; try discriminate; split; reflexivity.
Qed.

Lemma ensure_label_keeps_tasks pl w : keeps_tasks w (snd (ensure_label pl w)).
Proof.
  unfold ensure_label. destruct (String.eqb _ _); [apply keeps_tasks_refl|].
  apply keeps_tasks_bind.
  - unfold _labels. apply keeps_tasks_bind; [apply keeps_tasks_refl|]. intros [ls|] w1.
    + apply keeps_tasks_refl.
    + apply keeps_tasks_bind; [now apply keeps_tasks_req|].
      intros [[]|] w2; split; reflexivity.
  - intros labs w1. destruct (List.find _ labs); [apply keeps_tasks_refl|].
    apply keeps_tasks_bind; [now apply keeps_tasks_req|]. intros created w2.
    apply keeps_tasks_bind; [split; reflexivity|]. intros _ w3.
    destruct created as [[]|]; apply keeps_tasks_refl.
Qed.

(** The labeling step writes at most the label set of the head. *)
Lemma labeling_step_tasks cfg head w :
  st_projects (remote (snd (labeling_step cfg head w))) = st_projects (remote w)
  /\ exists lab,
       (lab = (fun t => t) \/ exists ls, lab = set_labels (task_id head) ls)
       /\ st_tasks (remote (snd (labeling_step cfg head w)))
          = map lab (st_tasks (remote w)).
Proof.
  assert (Hid : forall l : list task, l = map (fun t => t) l)
    by (intros l; now rewrite map_id).
  rewrite labeling_step_run. destruct (string_truthy _) as [pl|].
  2:{ split; [reflexivity|]. exists (fun t => t). split; [now left|apply Hid]. }
  assert (H : st_projects (remote (snd (label_head head pl w))) = st_projects (remote w)
    /\ exists lab,
       (lab = (fun t => t) \/ exists ls, lab = set_labels (task_id head) ls)
       /\ st_tasks (remote (snd (label_head head pl w))) = map lab (st_tasks (remote w))).
  { unfold label_head, bind. pose proof (ensure_label_keeps_tasks pl w) as [Hp Ht].
    destruct (ensure_label pl w) as [[lid|e] w1]; cbn [snd] in *.
    2:{ split; [exact Hp|]. exists (fun t => t). split; [now left|]. rewrite Ht. apply Hid. }
    destruct (_ && _).
    2:{ cbn [ret snd]. split; [exact Hp|]. exists (fun t => t).
        split; [now left|]. rewrite Ht. apply Hid. }
    rewrite update_task_labels_run.
    destruct (faults w1 (length (log w1))); cbn [ret snd];
      (split; [exact Hp|]).
    - exists (fun t => t). split; [now left|]. cbn [logged remote]. rewrite Ht. apply Hid.
    - exists (set_labels (task_id head) (default [] (labels head) ++ [lid])).
      split; [right; eauto|]. cbn [served remote serve snd with_tasks st_tasks].
      now rewrite Ht.
    - exists (set_labels (task_id head) (default [] (labels head) ++ [lid])).
      split; [right; eauto|]. cbn [served remote serve snd with_tasks st_tasks].
      now rewrite Ht. }
  now destruct (label_head head pl w) as [[b|e] w'].
Qed.

(** The tasks of the store after a run that ended with status ok: the due
    date written on the head, the due dates of [cleared_tasks] removed, and
    at most the label set of the head replaced. *)
Lemma store_after_run_exact cfg w s w1 :
  promote_queue cfg w = (Ok s, w1) ->
  sum_status s = status_ok ->
  exists pid head rest cleared labeled lab,
    resolve_name (st_projects (remote w)) (project_name cfg) = Ok (Some pid)
    /\ tasks_sorted (tasks_in pid (remote w)) = head :: rest
    /\ s = promoted (project_name cfg) head cleared labeled
    /\ cleared = length (cleared_tasks cfg rest)
    /\ st_projects (remote w1) = st_projects (remote w)
    /\ (lab = (fun t => t) \/ exists ls, lab = set_labels (task_id head) ls)
    /\ st_tasks (remote w1)
       = map (fun t => lab (clear_ids (map task_id (cleared_tasks cfg rest))
                              (set_due (task_id head)
                                       (due_of (due_string_of cfg) (language_of cfg)) t)))
             (st_tasks (remote w)).
Proof.
  intros H Hs.
  apply promote_queue_Ok_inv in H as
    (pid & head & rest & cleared & labeled & w4 & H1 & Ht & H2 & Hsort & H3 & H4 & H5 & ->);
    [|exact Hs].
  exists pid, head, rest, cleared, labeled.
  apply clear_due_step_Ok in H4 as [Hcount ->].
  rewrite clear_requests_map, length_map in Hcount.
  destruct (labeling_step_tasks cfg head
    (mk_world (replay (clear_requests cfg rest) (remote (head_promoted cfg pid head w)))
              (faults (head_promoted cfg pid head w))
              (log (head_promoted cfg pid head w) ++ clear_requests cfg rest)
              (_label_cache (head_promoted cfg pid head w)))) as (Hp & lab & Hlab & Htasks).
  rewrite H5 in Hp, Htasks. cbn [snd remote] in Hp, Htasks.
  rewrite clear_requests_map in Hp, Htasks.
  destruct (replay_clears_exact (language_of cfg) (cleared_tasks cfg rest)
              (remote (head_promoted cfg pid head w))) as (Hp' & _ & Ht').
  exists lab. split.
  { unfold get_project_id_by_name, list_projects, bind in H1. rewrite req_run in H1.
    destruct (faults w (length (log w))); try discriminate. simpl in H1.
    destruct (resolve_name _ _) as [r|e]; [|discriminate]. now injection H1 as ->. }
  split; [exact Hsort|]. split; [reflexivity|]. split; [exact Hcount|].
  split; [now rewrite Hp, Hp'|]. split; [exact Hlab|].
  rewrite Htasks, Ht'.
  cbn [head_promoted served remote serve snd with_tasks st_tasks logged listed].
  rewrite !map_map. reflexivity.
Qed.

Lemma label_write_facts (lab : task -> task) hid :
  (lab = (fun t => t) \/ exists ls, lab = set_labels hid ls) ->
  forall t, same_but_labels t (lab t) /\ (task_id t <> hid -> lab t = t).
Proof.
  intros [->|[ls ->]] t; [split; [repeat split|reflexivity]|].
  unfold set_labels. split.
  - destruct (bool_decide _); repeat split.
  - intros H. now rewrite bool_decide_eq_false_2.
Qed.

Lemma clear_ids_facts ids t :
  same_queue_task t (clear_ids ids t)
  /\ (In (task_id t) ids -> due (clear_ids ids t) = None)
  /\ (~ In (task_id t) ids -> clear_ids ids t = t).
Proof.
  unfold clear_ids. case_bool_decide as H; rewrite list_elem_of_In in H.
  - split; [apply set_due_same|]. split; [|contradiction].
    intros _. now apply set_due_hit.
  - split; [apply same_queue_task_refl|]. split; [contradiction|reflexivity].
Qed.

Lemma cleared_tasks_of_rest cfg rest i :
  In i (map task_id (cleared_tasks cfg rest)) -> In i (map task_id rest).
Proof.
  unfold cleared_tasks. destruct (default true _); [|intros []].
  intros H. apply in_map_iff in H as (t & <- & Ht).
  apply List.filter_In in Ht as [Ht _]. now apply in_map.
Qed.




(** X11. After a run that ends with status ok, with clearing switched on and
    unique task identifiers, the head carries the configured due date and
    every other task of the queue carries none. *)
Theorem run_leaves_one_due (cfg : config) (w : world) (s : summary) (w1 : world) :
  List.NoDup (map task_id (st_tasks (remote w))) ->
  promote_queue cfg w = (Ok s, w1) ->
  sum_status s = status_ok ->
  default true (clear_due_on_rest cfg) = true ->
  exists pid head rest,
    tasks_sorted (tasks_in pid (remote w)) = head :: rest
    /\ forall t', In t' (tasks_in pid (remote w1)) ->
         (task_id t' = task_id head ->
          due t' = due_of (due_string_of cfg) (language_of cfg))
         /\ (task_id t' <> task_id head -> due t' = None).
Proof.
  intros Hnd H Hs Hflag.
  destruct (store_after_run_exact _ _ _ _ H Hs)
    as (pid & head & rest & cleared & labeled & lab & Hr & Hsort & _ & _ & Hp & Hlab & Ht).
  exists pid, head, rest. split; [exact Hsort|].
  intros t' Ht'. unfold tasks_in in Ht'. apply List.filter_In in Ht' as [Hin Hproj].
  apply bool_decide_eq_true_1 in Hproj.
  rewrite Ht in Hin. apply in_map_iff in Hin as (t & <- & Hin).
  set (d := due_of (due_string_of cfg) (language_of cfg)) in *.
  set (ids := map task_id (cleared_tasks cfg rest)) in *.
  destruct (label_write_facts lab _ Hlab (clear_ids ids (set_due (task_id head) d t)))
    as [(Hlid & _ & _ & Hldue & Hlproj) _].
  destruct (clear_ids_facts ids (set_due (task_id head) d t))
    as ((Hcid & _ & _ & Hcproj) & Hcin & Hcout).
  destruct (set_due_same (task_id head) d t) as (Hsid & _ & _ & Hsproj).
  assert (Hid : task_id (lab (clear_ids ids (set_due (task_id head) d t))) = task_id t)
    by congruence.
  assert (Htq : In t (tasks_in pid (remote w))).
  { unfold tasks_in. apply List.filter_In. split; [exact Hin|].
    apply bool_decide_eq_true_2. congruence. }
  assert (Hhr : In t (head :: rest)).
  { rewrite <- Hsort. exact (Permutation_in _ (tasks_sorted_perm _) Htq). }
  assert (Hnh : ~ In (task_id head) (map task_id rest))
    by exact (head_not_in_rest pid (remote w) head rest Hnd Hsort).
  rewrite Hldue, Hid. split.
  - intros E. rewrite Hcout.
    + now apply set_due_hit.
    + rewrite Hsid, E. intros Hi. apply Hnh. now apply (cleared_tasks_of_rest cfg).
  - intros Hne. rewrite set_due_other in * by exact Hne.
    destruct Hhr as [<-|Hrest]; [congruence|].
    destruct (due t) eqn:Ed.
    + apply Hcin. unfold ids, cleared_tasks. rewrite Hflag.
      apply in_map, List.filter_In. split; [exact Hrest|]. unfold has_due. now rewrite Ed.
    + destruct (clear_ids_facts ids t) as (_ & Hin' & Hout').
      destruct (in_dec (fun a b => decide (a = b)) (task_id t) ids) as [Hi|Hi];
        [now apply Hin'|now rewrite Hout'].
Qed.

Lemma run_leaves_one_due_witness :
  exists pid head rest,
    tasks_sorted (tasks_in pid (remote sample_world)) = head :: rest
    /\ forall t',
         In t' (tasks_in pid
                  (remote (snd (promote_queue (queue_cfg "Chore Queue") sample_world)))) ->
         (task_id t' = task_id head ->
          due t' = due_of (due_string_of (queue_cfg "Chore Queue"))
                          (language_of (queue_cfg "Chore Queue")))
         /\ (task_id t' <> task_id head -> due t' = None).
Proof.
  apply (run_leaves_one_due (queue_cfg "Chore Queue") sample_world
           (promoted "Chore Queue" trash 1 true)).
  - exact NoDup_sample_tasks.
  - reflexivity.
  - reflexivity.
  - reflexivity.
Defined.



(** ** The label write *)



(** ** The driver *)




(** The summaries [promote_queue] builds. *)
Lemma promote_queue_summary cfg w s w' :
  promote_queue cfg w = (Ok s, w') ->
  s = missing_project (project_name cfg)
  \/ s = empty_queue (project_name cfg)
  \/ exists head cleared labeled, s = promoted (project_name cfg) head cleared labeled.
Proof.
  unfold promote_queue. intros H.
  apply bind_Ok in H as (pid & w1 & _ & H).
  destruct pid as [pid|]; [|injection H as <- _; now left].
  destruct (truthy_ident pid); [|injection H as <- _; now left].
  apply bind_Ok in H as (tasks & w2 & _ & H).
  destruct tasks as [|t ts]; [injection H as <- _; right; now left|].
  destruct (tasks_sorted (t :: ts)) as [|head rest]; [discriminate|].
  apply bind_Ok in H as (? & w3 & _ & H).
  apply bind_Ok in H as (cleared & w4 & _ & H).
  apply bind_Ok in H as (labeled & w5 & _ & H).
  injection H as <- _. right. right. now exists head, cleared, labeled.
Qed.


Lemma In_more_lines n0 (b0 : bool) x :
  In x ((if (0 <? n0)%nat then [ClearedDue n0] else [])
        ++ (if b0 then [AppliedLabel] else []))
  <-> (x = ClearedDue n0 /\ (0 < n0)%nat) \/ (x = AppliedLabel /\ b0 = true).
Proof.
  rewrite in_app_iff.
  destruct (Nat.ltb_spec 0 n0), b0; simpl;
    intuition (try lia; try discriminate; auto).
Qed.

(** X15. Whatever a summary of [promote_queue] says, [print_result] prints
    it without a [KeyError]: between one and three lines about the
    configured project, the first of which names the status; the line about
    cleared dates comes only with a positive count and the line about the
    label only with [labeled = true]. *)
Theorem print_result_reports_every_summary (cfg : config) (w : world)
    (s : summary) (w' : world) :
  promote_queue cfg w = (Ok s, w') ->
  exists first more,
    print_result s = Ok (first :: more)
    /\ (length more <= 2)%nat
    /\ match sum_status s with
       | status_ok =>
           (exists task, promoted_task s = Some task
                         /\ first = Success task (project_name cfg))
           /\ (In AppliedLabel more <-> labeled s = Some true)
           /\ (forall n, In (ClearedDue n) more <->
                         cleared_due_on s = Some n /\ (0 < n)%nat)
       | status_empty => first = NoTasks (project_name cfg) /\ more = []
       | status_missing_project =>
           first = ProjectNotFound (project_name cfg) /\ more = []
       end.
Proof.
  intros H. apply promote_queue_summary in H as [->|[->|(head & n0 & b0 & ->)]].
  - exists (ProjectNotFound (project_name cfg)), []. repeat split. simpl. lia.
  - exists (NoTasks (project_name cfg)), []. repeat split. simpl. lia.
  - exists (Success (default "(unnamed)"%string (content head)) (project_name cfg)),
           ((if (0 <? n0)%nat then [ClearedDue n0] else [])
            ++ (if b0 then [AppliedLabel] else [])).
    split; [reflexivity|]. split; [destruct (0 <? n0)%nat, b0; simpl; lia|].
    cbn [sum_status promoted]. split; [eexists; split; reflexivity|].
    split.
    + rewrite In_more_lines. cbn [labeled promoted]. split.
      * intros [[E _]|[_ ->]]; [discriminate|reflexivity].
      * intros [= ->]. right. now split.
    + intros n. rewrite In_more_lines. cbn [cleared_due_on promoted]. split.
      * intros [[[= ->] Hn]|[E _]]; [now split|discriminate].
      * intros [[= ->] Hn]. left. now split.
Qed.

Lemma print_result_reports_every_summary_witness :
  exists first more,
    print_result (promoted "Chore Queue" trash 1 true) = Ok (first :: more)
    /\ (length more <= 2)%nat
    /\ match sum_status (promoted "Chore Queue" trash 1 true) with
       | status_ok =>
           (exists task, promoted_task (promoted "Chore Queue" trash 1 true) = Some task
                         /\ first = Success task (project_name (queue_cfg "Chore Queue")))
           /\ (In AppliedLabel more <-> labeled (promoted "Chore Queue" trash 1 true) = Some true)
           /\ (forall n, In (ClearedDue n) more <->
                         cleared_due_on (promoted "Chore Queue" trash 1 true) = Some n
                         /\ (0 < n)%nat)
       | status_empty => first = NoTasks (project_name (queue_cfg "Chore Queue")) /\ more = []
       | status_missing_project =>
           first = ProjectNotFound (project_name (queue_cfg "Chore Queue")) /\ more = []
       end.
Proof.
  apply (print_result_reports_every_summary (queue_cfg "Chore Queue") sample_world
           (promoted "Chore Queue" trash 1 true)
           (snd (promote_queue (queue_cfg "Chore Queue") sample_world))).
  reflexivity.
Defined.




(** Two queues, the first of which fails on its task listing. *)
Example main_goes_on_after_a_failure :
  main (Some "token"%string) [queue_cfg "Chore Queue"; queue_cfg "Chore Queue"]
       sample_store (refuse_at 1)
  = mk_exit 0
      [Failed "Chore Queue" (RuntimeError 503 "service unavailable");
       Success "02 trash" "Chore Queue"; ClearedDue 1; AppliedLabel]
      []
      [GET_projects; GET_tasks (IInt 7);
       GET_projects; GET_tasks (IInt 7);
       POST_task_due (IInt 2) "today" "en";
       POST_task_due (IInt 6) "no due date" "en";
       GET_labels; POST_labels "@next"; POST_task_labels (IInt 2) [IInt 100]]
      (store_left (main (Some "token"%string)
                        [queue_cfg "Chore Queue"; queue_cfg "Chore Queue"]
                        sample_store (refuse_at 1))).
Proof. vm_compute. reflexivity. Qed.



(** * The hierarchical walk, in words and in the code *)

(** ** Trimming *)










(** ** Splitting at the slashes *)









(** ** Names, children and walks *)






Lemma first_such_unique {A} (P : A -> Prop) l x y :
  first_such P l x -> first_such P l y -> x = y.
Proof.
  intros (l1 & l2 & -> & Px & Hx) (m1 & m2 & E & Py & Hy).
  revert m1 E Hy. induction l1 as [|a l1 IH]; intros [|b m1] E Hy; cbn [app] in E.
  - now injection E.
  - injection E as -> _. exfalso. apply (Hy b); [now left|exact Px].
  - injection E as -> _. exfalso. apply (Hx y); [now left|exact Py].
  - injection E as -> E. apply (IH (fun z Hz => Hx z (or_intror Hz)) m1 E).
    intros z Hz. apply Hy. now right.
Qed.









